(** * remindme: the location manager over a spatial index

    A shallow embedding of [remindme.go]: the user registry, the three
    manager operations [addContacts], [nearContacts] and [updateLocation],
    and the [/ping] handler.

    The manager is written against the interface of package
    [github.com/asim/quadtree], which is not part of the sources; the
    interface is a type class ([quadtree.Index]) and the manager is generic
    in it.  One instance of the class, [SpatialIndex.index], follows the
    description of the index in the specification.

    Go values are modelled as follows.
    - [float64] is a primitive binary64 float; [==] is [PrimFloat.eqb]
      (IEEE equality: a NaN differs from itself).
    - [interface{}] is the type [any] of the dynamic values this program
      builds and inspects.
    - [*quadtree.Point] is a reference into a store of points shared by the
      manager and the index, so that the point a user record refers to and
      the point the index holds are one object.
    - [map[string]bool] and [map[string]*user] are finite maps.  A user
      record is reachable through the registry only, so the record is kept
      in the registry map and a write through the pointer [u] is a write to
      the registry entry.
    - The methods of the manager run in a state monad over the manager, the
      point store and a log of the lock operations, registry accesses and
      index calls performed, in program order.  The [log.Printf] lines write
      to the process log only and are left out. *)

From Stdlib Require Import Floats.PrimFloat ZArith.
From stdpp Require Import gmap strings list fin_maps.

Local Open Scope Z_scope.
Set Warnings "-register-all,-clear-no-such-hyp".

(** ** Dynamic values *)

(** The values an [interface{}] holds in this program: the payload of a
    point is [nil] or a string, and a decoded JSON document is made of the
    remaining shapes. *)
Inductive any :=
  | ANil
  | ABool (b : bool)
  | AFloat64 (f : float)
  | AString (s : string)
  | ASlice (l : list any)
  | AMap (m : gmap string any).

(** [v.(string)] *)
Definition as_string (v : any) : option string :=
  match v with AString s => Some s | _ => None end.

(** [v.(float64)] *)
Definition as_float64 (v : any) : option float :=
  match v with AFloat64 f => Some f | _ => None end.

(** [v.(map[string]interface{})] *)
Definition as_map (v : any) : option (gmap string any) :=
  match v with AMap m => Some m | _ => None end.

(** [data[k]]: a missing key reads as [nil]. *)
Definition index_any (data : gmap string any) (k : string) : any :=
  default ANil (data !! k).

(** ** Package quadtree: the interface the manager uses *)

Module quadtree.

(** Modelled from the spec: the type [Point] of package quadtree, which is
    not part of the sources: a coordinate pair and an optional opaque
    payload. *)
Record Point := mkPoint { x : float; y : float; data : any }.

(** The zero value of [Point]. *)
#[export] Instance Point_inhabited : Inhabited Point :=
  populate (mkPoint 0 0 ANil).

(** A [*Point].  The store is a sequence of points and a reference is a
    position in it; allocation appends, and nothing is ever freed.  The
    manager dereferences only what it allocated or what the index returned;
    a position outside the store reads as the zero value. *)
Abbreviation ref := nat (only parsing).
Abbreviation store := (list Point) (only parsing).

(** Modelled from the spec: the constructor [NewPoint(x, y, data)] of
    package quadtree, which is not part of the sources; here as a value. *)
Definition NewPoint (x y : float) (data : any) : Point := mkPoint x y data.

(** Modelled from the spec: the accessors [p.Data()] and [p.Coordinates()]
    of package quadtree, which is not part of the sources: the payload and
    the coordinate pair of the point. *)
Definition Data (h : store) (p : ref) : any := data (h !!! p).
Definition Coordinates (h : store) (p : ref) : float * float :=
  (x (h !!! p), y (h !!! p)).

(** Modelled from the spec: the constructor [NewAABB(a, b)] of package
    quadtree, which is not part of the sources.  It keeps its two
    arguments; which rectangle they denote is up to the index. *)
Record AABB := NewAABB { corner_a : Point; corner_b : Point }.

(** Modelled from the spec: the two ways [Insert] and [Update] of package
    quadtree, which is not part of the sources, are said to fail. *)
Inductive error := OutOfBoundsError | NotFoundError.

(** The operations of the package that [remindme.go] calls, as parameters
    of the manager.  [Insert] and [Update] may change the tree and the
    points in the store; [KNearest] only reads them. *)
Class Index := {
  QuadTree : Type;
  HalfPoint : Point -> float -> Point;
  New : AABB -> Z -> option QuadTree -> QuadTree;
  Insert : QuadTree -> store -> ref -> QuadTree * store * option error;
  Update : QuadTree -> store -> ref -> ref -> QuadTree * store * option error;
  KNearest : QuadTree -> store -> AABB -> Z -> (ref -> bool) -> list ref;
}.

End quadtree.

Import quadtree.

(** ** sync.RWMutex *)

Record RWMutex := mkRWMutex { writer : bool; readers : nat }.

Definition unlocked : RWMutex := mkRWMutex false 0.

(** ** Manager state *)

Record user := mkUser {
  uid : string;                    (* field [id] *)
  contacts : gmap string bool;
  location : option ref;           (* [nil] or a point *)
}.

Section Manager.

Context {Q : Index}.

Record manager := mkManager {
  mu : RWMutex;                    (* the embedded [sync.RWMutex] *)
  world : QuadTree;
  users : gmap string user;
}.

(** Calls to the index, with what [Insert] and [Update] reported. *)
Inductive call :=
  | CInsert (p : ref) (r : option error)
  | CUpdate (p np : ref) (r : option error)
  | CKNearest (a : AABB) (i : Z).

Inductive event :=
  | EvLock | EvUnlock | EvRLock | EvRUnlock
  | EvUsers (id : string)          (* the registry or one of its records *)
  | EvWorld (c : call).

Record state := mkState {
  mgr : manager;
  heap : store;
  trace : list event;
}.

Definition M (A : Type) : Type := state -> A * state.

Definition ret {A} (a : A) : M A := fun s => (a, s).
Definition bind {A B} (c : M A) (k : A -> M B) : M B :=
  fun s => let '(a, s') := c s in k a s'.

Definition run {A} (c : M A) (s : state) : state := snd (c s).
Definition result {A} (c : M A) (s : state) : A := fst (c s).

End Manager.

Notation "x <- c ;; k" := (bind c (fun x => k))
  (at level 100, c at next level, right associativity).
Notation "c ;;; k" := (bind c (fun _ => k))
  (at level 100, right associativity).

Section Manager_ops.

Context {Q : Index}.

Definition emit (e : event) : M unit :=
  fun s => (tt, mkState (mgr s) (heap s) (trace s ++ [e])).

Definition set_mu (l : RWMutex) : M unit :=
  fun s => (tt, mkState (mkManager l (world (mgr s)) (users (mgr s)))
                        (heap s) (trace s)).

Definition get_mu : M RWMutex := fun s => (mu (mgr s), s).

(** [m.Lock()], [m.Unlock()], [m.RLock()], [m.RUnlock()].  A call that
    finds the mutex held waits for it; the model runs one method at a
    time. *)
Definition Lock : M unit :=
  l <- get_mu ;; set_mu (mkRWMutex true (readers l)) ;;; emit EvLock.
Definition Unlock : M unit :=
  l <- get_mu ;; set_mu (mkRWMutex false (readers l)) ;;; emit EvUnlock.
Definition RLock : M unit :=
  l <- get_mu ;; set_mu (mkRWMutex (writer l) (S (readers l))) ;;; emit EvRLock.
Definition RUnlock : M unit :=
  l <- get_mu ;; set_mu (mkRWMutex (writer l) (pred (readers l))) ;;; emit EvRUnlock.

(** [defer d] in a function whose remaining body is [body]: [d] runs when
    the body returns, on whichever path. *)
Definition defer {A} (d : M unit) (body : M A) : M A :=
  r <- body ;; d ;;; ret r.

(** [m.users[id]] *)
Definition users_get (id : string) : M (option user) :=
  emit (EvUsers id) ;;; fun s => (users (mgr s) !! id, s).

(** [m.users[id] = u], and a write through the pointer [u] of the record
    registered under [id]. *)
Definition users_set (id : string) (u : user) : M unit :=
  emit (EvUsers id) ;;;
  fun s => (tt, mkState (mkManager (mu (mgr s)) (world (mgr s))
                                   (<[id := u]> (users (mgr s))))
                        (heap s) (trace s)).

(** A [quadtree.NewPoint] whose result is kept in shared state. *)
Definition new_point (x y : float) (d : any) : M ref :=
  fun s => (length (heap s),
            mkState (mgr s) (heap s ++ [NewPoint x y d]) (trace s)).

Definition get_heap : M store := fun s => (heap s, s).

Definition set_world (t : QuadTree) (h : store) : M unit :=
  fun s => (tt, mkState (mkManager (mu (mgr s)) t (users (mgr s))) h (trace s)).

Definition get_world : M QuadTree := fun s => (world (mgr s), s).

(** [m.world.Insert(p)] *)
Definition world_Insert (p : ref) : M (option error) :=
  t <- get_world ;; h <- get_heap ;;
  let '(t', h', r) := Insert t h p in
  set_world t' h' ;;; emit (EvWorld (CInsert p r)) ;;; ret r.

(** [m.world.Update(p, np)] *)
Definition world_Update (p np : ref) : M (option error) :=
  t <- get_world ;; h <- get_heap ;;
  let '(t', h', r) := Update t h p np in
  set_world t' h' ;;; emit (EvWorld (CUpdate p np r)) ;;; ret r.

(** [m.world.KNearest(a, i, fn)] *)
Definition world_KNearest (a : AABB) (i : Z) (fn : ref -> bool) : M (list ref) :=
  t <- get_world ;; h <- get_heap ;;
  emit (EvWorld (CKNearest a i)) ;;; ret (KNearest t h a i fn).

(** *** Globals and constructors *)

Definition nearestContacts : Z := 5.
Definition nearestDistance : float := 10.

Definition newUser (id : string) : user := mkUser id ∅ None.

Definition newWorld : QuadTree :=
  let ax := NewPoint 0 0 ANil in
  let bx := NewPoint 85 185 ANil in
  let bb := NewAABB ax bx in
  New bb 0 None.

Definition newManager : manager := mkManager unlocked newWorld ∅.

(** The process starts with [defaultManager] and no point allocated. *)
Definition defaultManager : state := mkState newManager [] [].

(** *** addContacts *)

(** The loop over [contacts]; [u] is the record registered under [id],
    and [u.contacts[contact] = true] writes through it. *)
Fixpoint addContacts_loop (id : string) (u : user) (cs : list string) : M unit :=
  match cs with
  | [] => ret tt
  | contact :: cs' =>
      match contacts u !! contact with
      | Some _ => addContacts_loop id u cs'                 (* continue *)
      | None =>
          let u' := mkUser (uid u) (<[contact := true]> (contacts u)) (location u) in
          users_set id u' ;;; addContacts_loop id u' cs'
      end
  end.

Definition addContacts (id : string) (cs : list string) : M unit :=
  Lock ;;;
  defer Unlock (
    o <- users_get id ;;
    u <- match o with
         | Some u => ret u
         | None => users_set id (newUser id) ;;; ret (newUser id)
         end ;;
    addContacts_loop id u cs).

(** *** nearContacts *)

(** The closure [filter] of [nearContacts], over the contact map [c]. *)
Definition contactFilter (h : store) (c : gmap string bool) (p : ref) : bool :=
  match as_string (Data h p) with
  | None => false
  | Some id =>
      match c !! id with
      | None => false
      | Some _ => true
      end
  end.

(** The loop over [points]; [acc] is the slice [contacts] built so far. *)
Fixpoint collect (h : store) (self : string) (points : list ref)
    (acc : list string) : list string :=
  match points with
  | [] => acc
  | point :: rest =>
      match as_string (Data h point) with
      | None => collect h self rest acc                    (* continue *)
      | Some id =>
          if decide (id = self) then collect h self rest acc   (* continue *)
          else collect h self rest (acc ++ [id])
      end
  end.

Definition nearContacts (id : string) (lat lon : float) : M (list string) :=
  Lock ;;;
  defer Unlock (
    o <- users_get id ;;
    match o with
    | None => ret []
    | Some u =>
        if decide (size (contacts u) = 0%nat) then ret []
        else
          let c := contacts u in
          h <- get_heap ;;
          let filter := contactFilter h c in
          let ax := NewPoint lat lon ANil in
          let bx := HalfPoint ax nearestDistance in
          let bb := NewAABB ax bx in
          points <- world_KNearest bb nearestContacts filter ;;
          ret (collect h (uid u) points [])
    end).

(** *** updateLocation *)

Definition updateLocation (id : string) (lat lon : float) : M unit :=
  Lock ;;;
  defer Unlock (
    o <- users_get id ;;
    u <- match o with
         | Some u => ret u
         | None => users_set id (newUser id) ;;; ret (newUser id)
         end ;;
    match location u with
    | None =>
        p <- new_point lat lon (AString id) ;;
        users_set id (mkUser (uid u) (contacts u) (Some p)) ;;;
        world_Insert p ;;;
        ret tt
    | Some loc =>
        h <- get_heap ;;
        let '(x, y) := Coordinates h loc in
        if PrimFloat.eqb x lat && PrimFloat.eqb y lon then ret tt
        else
          np <- new_point lat lon ANil ;;
          world_Update loc np ;;;
          ret tt
    end).

(** *** The /ping handler *)

(** The request as [pingHandler] reads it: the method, and the outcome of
    [ioutil.ReadAll] followed by [json.Unmarshal] on the body. *)
Inductive body :=
  | BodyUnreadable
  | BodyMalformed
  | BodyObject (data : gmap string any).

Record Request := mkRequest { Method : string; Body : body }.

(** What the client receives: the status code and the text written. *)
Record Response := mkResponse { Code : Z; Text : string }.

Definition StatusOK : Z := 200.
Definition StatusBadRequest : Z := 400.

(** [http.Error(w, msg, code)] *)
Definition http_Error (msg : string) (code : Z) : Response :=
  mkResponse code (String.append msg (String (Ascii.ascii_of_nat 10) "")).

(** A handler that returns without writing answers 200 with no body. *)
Definition no_content : Response := mkResponse StatusOK "".

Definition pingHandler (r : Request) : M Response :=
  if negb (String.eqb (Method r) "POST") then
    ret (http_Error "Bad Request. Non POST" StatusBadRequest)
  else
    match Body r with
    | BodyUnreadable =>
        ret (http_Error "Bad Request. Could not read body." StatusBadRequest)
    | BodyMalformed =>
        ret (http_Error "Bad Request. Failed to unmarshal request." StatusBadRequest)
    | BodyObject data =>
        match as_string (index_any data "id") with
        | None => ret (http_Error "Bad Request. Could not find id." StatusBadRequest)
        | Some id =>
            match as_map (index_any data "location") with
            | None =>
                ret (http_Error "Bad Request. Could not find location." StatusBadRequest)
            | Some loc =>
                match as_float64 (index_any loc "lat") with
                | None =>
                    ret (http_Error "Bad Request. Could not parse latitude." StatusBadRequest)
                | Some lat =>
                    match as_float64 (index_any loc "lon") with
                    | None =>
                        ret (http_Error "Bad Request. Could not parse longitude."
                                        StatusBadRequest)
                    | Some lon =>
                        updateLocation id lat lon ;;; ret no_content
                    end
                end
            end
        end
    end.

End Manager_ops.

(** ** The spatial index of the specification *)

Module SpatialIndex.

(** Modelled from the spec: the type [BoundingBox] of package quadtree,
    which is not part of the sources: an axis-aligned rectangle between a
    lower and an upper corner. *)
Record BoundingBox := mkBox {
  min_x : float; min_y : float;
  max_x : float; max_y : float;
}.

(** Modelled from the spec: [centerAndHalfExtent] of package quadtree,
    which is not part of the sources.  [NewAABB(center, half)] denotes the
    window centred on [center] that extends by the coordinates of [half]
    on either side, in raw coordinate units. *)
Definition region (bb : AABB) : BoundingBox :=
  let c := corner_a bb in
  let h := corner_b bb in
  mkBox (x c - x h) (y c - y h) (x c + x h) (y c + y h).

(** Modelled from the spec: [contains(box, point)] of package quadtree,
    which is not part of the sources. *)
Definition contains (b : BoundingBox) (p : Point) : bool :=
  (min_x b <=? x p)%float && (x p <=? max_x b)%float &&
  (min_y b <=? y p)%float && (y p <=? max_y b)%float.

(** Modelled from the spec: [squaredDistance(p1, p2)] of package
    quadtree, which is not part of the sources: Euclidean, in coordinate
    space. *)
Definition squaredDistance (p1 p2 : Point) : float :=
  ((x p1 - x p2) * (x p1 - x p2) + (y p1 - y p2) * (y p1 - y p2))%float.

(** Modelled from the spec: the half-extent point of a window of package
    quadtree, which is not part of the sources: [m] coordinate units on
    both axes. *)
Definition HalfPoint (p : Point) (m : float) : Point := NewPoint m m ANil.

(** Modelled from the spec: the type [SpatialIndex] of package quadtree,
    which is not part of the sources.  The specification gives the effect
    of [Insert], [Update] and [KNearest] on the indexed point set as a
    whole; the partition of that set into quadrants only prunes the
    search.  The index is its root region and the references it holds, in
    insertion order. *)
Record tree := mkTree { boundary : BoundingBox; points : list ref }.

(** Modelled from the spec: the constructor of the index of package
    quadtree, which is not part of the sources: an empty index over the
    given region. *)
Definition New (bb : AABB) (depth : Z) (parent : option tree) : tree :=
  mkTree (region bb) [].

(** Modelled from the spec: [Insert(point)] of package quadtree, which is
    not part of the sources: the point is stored if it lies in the root
    region, and the call fails with [OutOfBoundsError], the index
    unchanged, if it does not. *)
Definition Insert (t : tree) (h : store) (p : ref) : tree * store * option error :=
  if contains (boundary t) (h !!! p)
  then (mkTree (boundary t) (points t ++ [p]), h, None)
  else (t, h, Some OutOfBoundsError).

(** Modelled from the spec: [Update(oldPoint, newPoint)] of package
    quadtree, which is not part of the sources: nothing happens if the
    coordinates agree; [NotFoundError] if [oldPoint] is not stored, by
    reference identity; otherwise [oldPoint] is removed and [newPoint] is
    inserted afresh. *)
Definition Update (t : tree) (h : store) (p np : ref) : tree * store * option error :=
  if PrimFloat.eqb (x (h !!! p)) (x (h !!! np)) &&
     PrimFloat.eqb (y (h !!! p)) (y (h !!! np))
  then (t, h, None)
  else if decide (p ∈ points t)
  then Insert (mkTree (boundary t) (filter (λ q, q ≠ p) (points t))) h np
  else (t, h, Some NotFoundError).

(** Modelled from the spec: the ranking of [KNearest] of package
    quadtree, which is not part of the sources: ascending by distance,
    points at equal distance in the order they were scanned. *)
Fixpoint insert_by (d : ref -> float) (p : ref) (l : list ref) : list ref :=
  match l with
  | [] => [p]
  | q :: l' => if (d p <? d q)%float then p :: q :: l' else q :: insert_by d p l'
  end.

Definition sort_by (d : ref -> float) (l : list ref) : list ref :=
  foldl (λ acc p, insert_by d p acc) [] l.

(** Modelled from the spec: [KNearest(window, k, filter)] of package
    quadtree, which is not part of the sources: the stored points inside
    the window that satisfy the filter, sorted ascending by squared
    distance from the centre of the window and truncated to [k]; the
    window is never widened. *)
Definition KNearest (t : tree) (h : store) (a : AABB) (i : Z)
    (fn : ref -> bool) : list ref :=
  let candidates :=
    filter (λ p, contains (region a) (h !!! p) && fn p = true) (points t) in
  take (Z.to_nat i)
       (sort_by (λ p, squaredDistance (h !!! p) (corner_a a)) candidates).

#[export] Instance index : Index := {|
  quadtree.QuadTree := tree;
  quadtree.HalfPoint := HalfPoint;
  quadtree.New := New;
  quadtree.Insert := Insert;
  quadtree.Update := Update;
  quadtree.KNearest := KNearest;
|}.

End SpatialIndex.

(** ** Observations on a state *)

Section Observations.

Context {Q : Index}.

(** [contacts(u)]: the keys of the contact map of the user registered
    under [id]; empty for an unknown user. *)
Definition contacts_of (s : state) (id : string) : gset string :=
  match users (mgr s) !! id with
  | Some u => dom (contacts u)
  | None => ∅
  end.

(** The index calls among the events of a log. *)
Definition world_calls (l : list event) : list call :=
  omap (λ e, match e with EvWorld c => Some c | _ => None end) l.

(** Events that touch the registry or the index. *)
Definition is_access (e : event) : bool :=
  match e with EvUsers _ | EvWorld _ => true | _ => false end.

(** A sequence of manager calls. *)
Fixpoint run_all (cs : list (M unit)) (s : state) : state :=
  match cs with
  | [] => s
  | c :: cs' => run_all cs' (run c s)
  end.

(** Every record is registered under its own id. *)
Definition registry_ok (s : state) : Prop :=
  map_Forall (λ k u, uid u = k) (users (mgr s)).

(** What the specification promises of [KNearest]: at most [k] points,
    each of which satisfies the filter. *)
Definition KNearest_capped : Prop :=
  ∀ t h a i fn, (length (KNearest t h a i fn) ≤ Z.to_nat i)%nat.

Definition KNearest_filtered : Prop :=
  ∀ t h a i fn p, p ∈ KNearest t h a i fn → fn p = true.

(** A computation that takes no lock: it only adds registry and index
    events to the log and leaves the mutex as it found it. *)
Definition quiet {A} (c : M A) : Prop :=
  ∀ s, ∃ evs,
    trace (run c s) = trace s ++ evs ∧
    Forall (λ e, is_access e = true) evs ∧
    mu (mgr (run c s)) = mu (mgr s).

(** A call that holds the mutex exclusively around all it does: its
    events are [Lock], then registry and index accesses only, then
    [Unlock], and the mutex is free again when it returns. *)
Definition exclusive {A} (c : M A) (s : state) : Prop :=
  ∃ body,
    trace (run c s) = trace s ++ EvLock :: body ++ [EvUnlock] ∧
    Forall (λ e, is_access e = true) body ∧
    mu (mgr (run c s)) = unlocked.

(** The mutex after a call that took it and gave it back. *)
Definition released (l : RWMutex) : RWMutex := mkRWMutex false (readers l).

(** The events a computation adds to the log. *)
Definition new_events {A} (c : M A) (s : state) : list event :=
  drop (length (trace s)) (trace (run c s)).

(** A ping whose [Update] reports [OutOfBoundsError] is answered with a
    validation error. *)
Definition update_error_surfaces (s : state) (r : Request) : Prop :=
  ∀ p np,
    EvWorld (CUpdate p np (Some OutOfBoundsError)) ∈ new_events (pingHandler r) s →
    Code (result (pingHandler r) s) = StatusBadRequest.

(** The states the server reaches: it starts from [defaultManager], and
    every request that gets past its handler is one manager call. *)
Inductive reachable : state → Prop :=
  | reach_start : reachable defaultManager
  | reach_addContacts s id cs :
      reachable s → reachable (run (addContacts id cs) s)
  | reach_nearContacts s id lat lon :
      reachable s → reachable (run (nearContacts id lat lon) s)
  | reach_updateLocation s id lat lon :
      reachable s → reachable (run (updateLocation id lat lon) s).

(** The mutex held by one writer and no reader. *)
Definition write_held : RWMutex := mkRWMutex true 0.

(** An account of a run, event by event: each registry or index access
    with the state of the mutex at the moment of the access, and each
    lock operation with the state of the mutex once it has returned.  A
    computation has an account when it is put together from the
    operations below; the account follows the states the run really goes
    through. *)
Inductive exec : ∀ {A : Type}, M A → state → list (event * RWMutex) → Prop :=
  | exec_ret {A} (a : A) s : exec (ret a) s []
  | exec_bind {A B} (c : M A) (k : A → M B) s l1 l2 :
      exec c s l1 →
      exec (k (result c s)) (run c s) l2 →
      exec (bind c k) s (l1 ++ l2)
  | exec_Lock s : exec Lock s [(EvLock, mu (mgr (run Lock s)))]
  | exec_Unlock s : exec Unlock s [(EvUnlock, mu (mgr (run Unlock s)))]
  | exec_RLock s : exec RLock s [(EvRLock, mu (mgr (run RLock s)))]
  | exec_RUnlock s : exec RUnlock s [(EvRUnlock, mu (mgr (run RUnlock s)))]
  | exec_users_get id s : exec (users_get id) s [(EvUsers id, mu (mgr s))]
  | exec_users_set id u s : exec (users_set id u) s [(EvUsers id, mu (mgr s))]
  | exec_new_point x y d s : exec (new_point x y d) s []
  | exec_get_heap s : exec get_heap s []
  | exec_world_Insert p s :
      exec (world_Insert p) s
           [(EvWorld (CInsert p (result (world_Insert p) s)), mu (mgr s))]
  | exec_world_Update p np s :
      exec (world_Update p np) s
           [(EvWorld (CUpdate p np (result (world_Update p np) s)), mu (mgr s))]
  | exec_world_KNearest a i fn s :
      exec (world_KNearest a i fn) s [(EvWorld (CKNearest a i), mu (mgr s))].

(** A call that really holds the write lock around all it does: its run
    has an account that starts with [Lock] returning with the mutex held
    by one writer and no reader, goes on with registry and index accesses
    only, each made while the mutex is so held, and ends with [Unlock]
    returning with the mutex free; the log of the call is that account. *)
Definition locked_throughout {A} (c : M A) (s : state) : Prop :=
  ∃ body,
    exec c s ((EvLock, write_held) :: body ++ [(EvUnlock, unlocked)]) ∧
    Forall (λ em, is_access em.1 = true ∧ em.2 = write_held) body ∧
    trace (run c s) = trace s ++ EvLock :: body.*1 ++ [EvUnlock] ∧
    mu (mgr (run c s)) = unlocked.

(** A computation made of accesses only, none of which changes the mutex:
    every access of its run is made with the mutex as it was at the
    start. *)
Definition under_lock {A} (c : M A) : Prop :=
  ∀ s, ∃ l,
    exec c s l ∧
    Forall (λ em, is_access em.1 = true ∧ em.2 = mu (mgr s)) l ∧
    mu (mgr (run c s)) = mu (mgr s).

End Observations.

(** The points an index of the specification holds that carry the payload
    [id]. *)
Definition points_for (s : @state SpatialIndex.index) (id : string) : list ref :=
  filter (λ p, as_string (Data (heap s) p) = Some id) (SpatialIndex.points (world (mgr s))).

(** Every reference the index holds has been allocated. *)
Definition index_closed (s : @state SpatialIndex.index) : Prop :=
  Forall (λ q, (q < length (heap s))%nat) (SpatialIndex.points (world (mgr s))).

(** Every point a record refers to has been allocated. *)
Definition records_closed (s : @state SpatialIndex.index) : Prop :=
  ∀ id u p, users (mgr s) !! id = Some u → location u = Some p →
            (p < length (heap s))%nat.

(** A point of the index that carries an id is the point the record of
    that id refers to. *)
Definition payload_owned (s : @state SpatialIndex.index) : Prop :=
  ∀ q id, q ∈ SpatialIndex.points (world (mgr s)) →
          as_string (Data (heap s) q) = Some id →
          users (mgr s) !! id ≫= location = Some q.

(** What the index of the specification makes [Update] report when the
    coordinates differ: success for a stored point and a target in the
    world. *)
Definition relocation_report (s : @state SpatialIndex.index) (p : ref)
    (lat lon : float) : option error :=
  if decide (p ∈ SpatialIndex.points (world (mgr s))) then
    if SpatialIndex.contains (SpatialIndex.boundary (world (mgr s)))
                             (NewPoint lat lon ANil)
    then None else Some OutOfBoundsError
  else Some NotFoundError.

(** The position [(lat, lon)] lies in the root region of the index. *)
Definition in_world (s : @state SpatialIndex.index) (lat lon : float) : bool :=
  SpatialIndex.contains (SpatialIndex.boundary (world (mgr s)))
                        (NewPoint lat lon ANil).

(** ** Example runs over the index of the specification *)

Module Scenario.

#[local] Existing Instance SpatialIndex.index.

(** alice has bob and carol as contacts; alice and bob report the same
    position, carol never does. *)
Definition neighbours : state :=
  run_all [addContacts "alice" ["bob"; "carol"];
           updateLocation "alice" 51.5 (-0.125);
           updateLocation "bob" 51.5 (-0.125)] defaultManager.

(** a is its own contact and has reported a position. *)
Definition own_contact : state :=
  run_all [addContacts "a" ["a"]; updateLocation "a" 1 1] defaultManager.

(** x has reported a position inside the world. *)
Definition located : state := run (updateLocation "x" 1 1) defaultManager.

(** A ping of [id] at [(lat, lon)]. *)
Definition ping_location (lat lon : float) : gmap string any :=
  <["lat" := AFloat64 lat]> (<["lon" := AFloat64 lon]> ∅).

Definition ping_data (id : string) (lat lon : float) : gmap string any :=
  <["id" := AString id]> (<["location" := AMap (ping_location lat lon)]> ∅).

Definition ping (id : string) (lat lon : float) : Request :=
  mkRequest "POST" (BodyObject (ping_data id lat lon)).

End Scenario.

(** ** The other handlers *)

(** [v.([]interface{})] *)
Definition as_slice (v : any) : option (list any) :=
  match v with ASlice l => Some l | _ => None end.

(** The values the handlers hand to [json.Marshal]: the map with the one
    key [contacts] of [nearHandler], and the map from user id to a map
    with the keys [lat] and [lon] of [allHandler].  [nearContacts] returns
    either the nil slice or a slice with elements, so the empty sequence
    stands for the nil slice. *)
Inductive reply :=
  | NearReply (contacts : list string)
  | AllReply (users : gmap string (gmap string float)).

(** What a handler does to its [http.ResponseWriter], in order. *)
Inductive wcall :=
  | WError (msg : string) (code : Z)      (* [http.Error(w, msg, code)] *)
  | WWrite (b : string).                  (* [w.Write(b)] *)

Definition StatusInternalServerError : Z := 500.

Section Handlers.

Context {Q : Index}.

(** [json.Marshal], of package encoding/json: the encoding, or an error. *)
Variable json_Marshal : reply -> option string.

(** The conversion [int(f)] of a [float64]. *)
Variable int_of_float64 : float -> Z.

(** The loop of [contactHandler] over [icontacts]; [acc] is the slice
    [contacts] built so far, and [None] is the return on an element that is
    not a string. *)
Fixpoint contact_strings (icontacts : list any) (acc : list string)
    : option (list string) :=
  match icontacts with
  | [] => Some acc
  | contact :: rest =>
      match as_string contact with
      | None => None
      | Some c => contact_strings rest (acc ++ [c])
      end
  end.

Definition contactHandler (r : Request) : M Response :=
  if negb (String.eqb (Method r) "POST") then
    ret (http_Error "Bad Request. Non POST" StatusBadRequest)
  else
    match Body r with
    | BodyUnreadable =>
        ret (http_Error "Bad Request. Could not read body." StatusBadRequest)
    | BodyMalformed =>
        ret (http_Error "Bad Request. Failed to unmarshal request." StatusBadRequest)
    | BodyObject data =>
        match as_string (index_any data "id") with
        | None => ret (http_Error "Bad Request. Could not find id." StatusBadRequest)
        | Some id =>
            match as_slice (index_any data "contacts") with
            | None =>
                ret (http_Error "Bad Request. Could not find contacts." StatusBadRequest)
            | Some icontacts =>
                match contact_strings icontacts [] with
                | None =>
                    ret (http_Error "Bad Request. Failed to parse contacts."
                                    StatusBadRequest)
                | Some contacts => addContacts id contacts ;;; ret no_content
                end
            end
        end
    end.

(** [nearHandler]; [write_ok] tells whether [w.Write] succeeds. *)
Definition nearHandler (r : Request) (write_ok : bool) : M (list wcall) :=
  if negb (String.eqb (Method r) "POST") then
    ret [WError "Bad Request. Non POST" StatusBadRequest]
  else
    match Body r with
    | BodyUnreadable =>
        ret [WError "Bad Request. Could not read body." StatusBadRequest]
    | BodyMalformed =>
        ret [WError "Bad Request. Failed to unmarshal request." StatusBadRequest]
    | BodyObject data =>
        match as_string (index_any data "id") with
        | None => ret [WError "Bad Request. Could not find id." StatusBadRequest]
        | Some id =>
            match as_map (index_any data "location") with
            | None =>
                ret [WError "Bad Request. Could not find location." StatusBadRequest]
            | Some loc =>
                match as_float64 (index_any loc "lat") with
                | None =>
                    ret [WError "Bad Request. Could not parse latitude." StatusBadRequest]
                | Some lat =>
                    match as_float64 (index_any loc "lon") with
                    | None =>
                        ret [WError "Bad Request. Could not parse longitude."
                                    StatusBadRequest]
                    | Some lon =>
                        contacts <- nearContacts id lat lon ;;
                        match json_Marshal (NearReply contacts) with
                        | None =>
                            ret [WError "Internal Server Error. Could not marshal contacts."
                                        StatusInternalServerError]
                        | Some b =>
                            if write_ok then ret [WWrite b]
                            else
                              ret [WWrite b;
                                   WError "Internal Server Error. Could not write response."
                                          StatusInternalServerError]
                        end
                    end
                end
            end
        end
    end.

(** The loop of [allHandler] over [points]; [users] is the map built so
    far. *)
Fixpoint all_users (h : store) (points : list ref)
    (users : gmap string (gmap string float)) : gmap string (gmap string float) :=
  match points with
  | [] => users
  | point :: rest =>
      match as_string (Data h point) with
      | None => all_users h rest users                       (* continue *)
      | Some id =>
          let '(lat, lon) := Coordinates h point in
          all_users h rest (<[id := <["lat" := lat]> (<["lon" := lon]> ∅)]> users)
      end
  end.

(** [allHandler]; it reads [defaultManager.world] directly. *)
Definition allHandler (r : Request) (write_ok : bool) : M (list wcall) :=
  if negb (String.eqb (Method r) "POST") then
    ret [WError "Bad Request. Non POST" StatusBadRequest]
  else
    match Body r with
    | BodyUnreadable =>
        ret [WError "Bad Request. Could not read body." StatusBadRequest]
    | BodyMalformed =>
        ret [WError "Bad Request. Failed to unmarshal request." StatusBadRequest]
    | BodyObject data =>
        match as_string (index_any data "id") with
        | None => ret [WError "Bad Request. Could not find id." StatusBadRequest]
        | Some _ =>
        match as_float64 (index_any data "distance") with
        | None => ret [WError "Bad Request. Could not find distance." StatusBadRequest]
        | Some distance =>
        match as_float64 (index_any data "num_points") with
        | None => ret [WError "Bad Request. Could not find num_points." StatusBadRequest]
        | Some numPoints =>
        match as_map (index_any data "location") with
        | None => ret [WError "Bad Request. Could not find location." StatusBadRequest]
        | Some loc =>
        match as_float64 (index_any loc "lat") with
        | None => ret [WError "Bad Request. Could not parse latitude." StatusBadRequest]
        | Some lat =>
        match as_float64 (index_any loc "lon") with
        | None => ret [WError "Bad Request. Could not parse longitude." StatusBadRequest]
        | Some lon =>
            let filter := fun _ : ref => true in
            let ax := NewPoint lat lon ANil in
            let bx := HalfPoint ax distance in
            let bb := NewAABB ax bx in
            points <- world_KNearest bb (int_of_float64 numPoints) filter ;;
            h <- get_heap ;;
            let users := all_users h points ∅ in
            match json_Marshal (AllReply users) with
            | None =>
                ret [WError "Internal Server Error. Could not marshal response."
                            StatusInternalServerError]
            | Some b =>
                if write_ok then ret [WWrite b]
                else
                  ret [WWrite b;
                       WError "Internal Server Error. Could not write response."
                              StatusInternalServerError]
            end
        end end end end end end
    end.

End Handlers.

(** The payloads of a sequence of points that are strings, in order. *)
Definition payloads (h : store) (points : list ref) : list string :=
  omap (λ p, as_string (Data h p)) points.

(** The record [addContacts] leaves for a user that was [u]. *)
Definition with_contacts (u : user) (cs : list string) : user :=
  mkUser (uid u) (contacts u ∪ gset_to_gmap true (list_to_set cs)) (location u).

(** Every contact a record holds is stored with the value [true]. *)
Definition contacts_true {Q : Index} (s : state) : Prop :=
  map_Forall (λ _ u, map_Forall (λ _ (b : bool), b = true) (contacts u))
             (users (mgr s)).

(** No lock operation among the events. *)
Definition lock_free {Q : Index} (l : list event) : Prop :=
  Forall (λ e, is_access e = true) l.

(** * Properties *)

(** ** Running the monad *)

Ltac unfold_prims :=
  unfold defer, Lock, Unlock, users_get, users_set, world_KNearest,
    world_Insert, world_Update, new_point, get_heap, get_world, set_world,
    get_mu, set_mu, emit, bind, ret in *.

Ltac run_monad := unfold run, result in *; unfold_prims; cbn in *.

Section Generic.

Context {Q : Index}.

Lemma run_bind {A B} (c : M A) (k : A → M B) s :
  run (bind c k) s = run (k (result c s)) (run c s).
Proof. unfold run, result, bind. by destruct (c s). Qed.

Lemma run_ret {A} (a : A) s : run (ret a) s = s.
Proof. done. Qed.

Lemma result_bind {A B} (c : M A) (k : A → M B) s :
  result (bind c k) s = result (k (result c s)) (run c s).
Proof. unfold run, result, bind. by destruct (c s). Qed.

(** *** The loop of nearContacts *)

Lemma collect_length h self pts acc :
  (length (collect h self pts acc) ≤ length acc + length pts)%nat.
Proof.
  revert acc. induction pts as [|p pts IH]; intros acc; simpl; [lia|].
  destruct (as_string (Data h p)) as [s|]; [|specialize (IH acc); lia].
  destruct (decide (s = self)); [specialize (IH acc); lia|].
  specialize (IH (acc ++ [s])). rewrite length_app in IH. simpl in IH. lia.
Qed.

Lemma collect_elem h self pts acc s :
  s ∈ collect h self pts acc →
  s ∈ acc ∨ (s ≠ self ∧ ∃ p, p ∈ pts ∧ as_string (Data h p) = Some s).
Proof.
  revert acc. induction pts as [|p pts IH]; intros acc; simpl; [by left|].
  destruct (as_string (Data h p)) as [s'|] eqn:Hp.
  - destruct (decide (s' = self)) as [->|Hne].
    + intros [?|(?&q&?&?)]%IH; [by left|right].
      split; [done|]. exists q. split; [by right|done].
    + intros [[?| ->%list_elem_of_singleton]%elem_of_app|(?&q&?&?)]%IH.
      * by left.
      * right. split; [done|]. exists p. split; [by left|done].
      * right. split; [done|]. exists q. split; [by right|done].
  - intros [?|(?&q&?&?)]%IH; [by left|right].
    split; [done|]. exists q. split; [by right|done].
Qed.

Lemma contactFilter_spec h (c : gmap string bool) p :
  contactFilter h c p = true ↔
  ∃ s, as_string (Data h p) = Some s ∧ s ∈ dom c.
Proof.
  unfold contactFilter. split.
  - destruct (as_string (Data h p)) as [s|]; [|done].
    destruct (c !! s) eqn:Hs; [|done].
    intros _. exists s. split; [done|]. apply elem_of_dom. eauto.
  - intros (s & -> & [b Hb]%elem_of_dom). by rewrite Hb.
Qed.

(** What [nearContacts] computes, with the lock bookkeeping set aside. *)
Lemma nearContacts_result id lat lon s :
  result (nearContacts id lat lon) s =
  match users (mgr s) !! id with
  | None => []
  | Some u =>
      if decide (size (contacts u) = 0%nat) then []
      else
        let bb := NewAABB (NewPoint lat lon ANil)
                          (HalfPoint (NewPoint lat lon ANil) nearestDistance) in
        collect (heap s) (uid u)
          (KNearest (world (mgr s)) (heap s) bb nearestContacts
                    (contactFilter (heap s) (contacts u))) []
  end.
Proof.
  unfold nearContacts. run_monad.
  destruct (users (mgr s) !! id) as [u|]; [|done].
  destruct (decide (size (contacts u) = 0%nat)); done.
Qed.

End Generic.

(** ** Proximity queries *)

Section NearContacts.

Context {Q : Index}.

(** C3.  If the user [id] is unknown to the manager, or is known and has
    an empty contact set, [nearContacts id lat lon] returns the empty
    sequence (an ordinary return value, the function has no error
    result), and it neither queries nor changes the index: the only
    events of the call are the lock, one registry lookup and the unlock,
    and the index, the registry and the point store are as before. *)
Theorem nearContacts_short_circuit (id : string) (lat lon : float) (s : state) :
  users (mgr s) !! id = None ∨
    (∃ u, users (mgr s) !! id = Some u ∧ contacts u = ∅) →
  result (nearContacts id lat lon) s = [] ∧
  trace (run (nearContacts id lat lon) s) =
    trace s ++ [EvLock; EvUsers id; EvUnlock] ∧
  world_calls (trace (run (nearContacts id lat lon) s)) = world_calls (trace s) ∧
  world (mgr (run (nearContacts id lat lon) s)) = world (mgr s) ∧
  users (mgr (run (nearContacts id lat lon) s)) = users (mgr s) ∧
  heap (run (nearContacts id lat lon) s) = heap s.
Proof.
  intros H.
  assert (Hshort : users (mgr s) !! id = None ∨
            ∃ u, users (mgr s) !! id = Some u ∧ size (contacts u) = 0%nat).
  { destruct H as [?|(u & ? & Hc)]; [by left|right].
    exists u. split; [done|]. rewrite Hc. apply map_size_empty. }
  clear H. unfold nearContacts, world_calls. run_monad.
  destruct Hshort as [->|(u & -> & Hu)]; cbn.
  - rewrite <- !app_assoc. cbn. rewrite omap_app. cbn.
    by rewrite app_nil_r.
  - destruct (decide (size (contacts u) = 0%nat)); [|done]. cbn.
    rewrite <- !app_assoc. cbn. rewrite omap_app. cbn.
    by rewrite app_nil_r.
Qed.

(** C6.  In a registry where every record is filed under its own id, the
    id of the querying user is not in the sequence [nearContacts]
    returns, whatever the index returned: also when the user is among its
    own contacts and its own point is in the window. *)
Theorem nearContacts_excludes_self (id : string) (lat lon : float) (s : state) :
  registry_ok s →
  id ∉ result (nearContacts id lat lon) s.
Proof.
  intros Hreg. rewrite nearContacts_result.
  destruct (users (mgr s) !! id) as [u|] eqn:Hu; [|apply not_elem_of_nil].
  destruct (decide (size (contacts u) = 0%nat)); [apply not_elem_of_nil|].
  cbn. intros [Hin|(Hne & _)]%collect_elem.
  - by apply not_elem_of_nil in Hin.
  - apply Hne. symmetry. by apply Hreg.
Qed.

End NearContacts.

Section NearContacts_contract.

Context {Q : Index}.

(** C4.  With an index whose [KNearest] returns at most [k] points, the
    sequence [nearContacts] returns has at most [nearestContacts]
    elements, and [nearestContacts] is 5. *)
Theorem nearContacts_bounded (id : string) (lat lon : float) (s : state) :
  KNearest_capped →
  (length (result (nearContacts id lat lon) s) ≤ Z.to_nat nearestContacts)%nat ∧
  nearestContacts = 5.
Proof.
  intros Hcap. split; [|done]. rewrite nearContacts_result.
  destruct (users (mgr s) !! id) as [u|]; [|simpl; lia].
  destruct (decide (size (contacts u) = 0%nat)); [simpl; lia|]. cbn zeta.
  etrans; [apply collect_length|]. simpl. apply Hcap.
Qed.

(** C5.  The filter [nearContacts] hands to the search accepts exactly
    the points whose payload is a string that is a key of the contact
    map; and with an index whose [KNearest] returns only points that
    satisfy the filter, every id in the sequence [nearContacts] returns
    is taken from the payload of a returned point and is an element of
    the contact set of the user. *)
Theorem nearContacts_only_contacts (id : string) (lat lon : float) (s : state) :
  KNearest_filtered →
  (∀ h c p, contactFilter h c p = true ↔
            ∃ x, as_string (Data h p) = Some x ∧ x ∈ dom c) ∧
  (∀ x, x ∈ result (nearContacts id lat lon) s → x ∈ contacts_of s id).
Proof.
  intros Hfil. split; [apply contactFilter_spec|].
  intros x. rewrite nearContacts_result. unfold contacts_of.
  destruct (users (mgr s) !! id) as [u|]; [|by intros ?%not_elem_of_nil].
  destruct (decide (size (contacts u) = 0%nat)); [by intros ?%not_elem_of_nil|].
  cbn zeta. intros [Hin|(_ & p & Hp & Hx)]%collect_elem.
  - by apply not_elem_of_nil in Hin.
  - apply Hfil, contactFilter_spec in Hp as (x' & Hx' & Hdom).
    congruence.
Qed.

End NearContacts_contract.

(** ** The index of the specification meets its contract *)

Module SpatialIndex_facts.
Import SpatialIndex.

Lemma insert_by_elem d p l q : q ∈ insert_by d p l ↔ q = p ∨ q ∈ l.
Proof.
  induction l as [|r l IH]; simpl.
  - rewrite list_elem_of_singleton. set_solver.
  - destruct (d p <? d r)%float; [set_solver|].
    rewrite !elem_of_cons, IH. naive_solver.
Qed.

Lemma insert_by_length d p l : length (insert_by d p l) = S (length l).
Proof.
  induction l as [|r l IH]; simpl; [done|].
  destruct (d p <? d r)%float; simpl; [done|]. by rewrite IH.
Qed.

Lemma sort_by_elem d l q : q ∈ sort_by d l ↔ q ∈ l.
Proof.
  unfold sort_by.
  assert (G : ∀ acc, q ∈ foldl (λ acc p, insert_by d p acc) acc l ↔ q ∈ acc ∨ q ∈ l).
  { induction l as [|p l IH]; intros acc; simpl; [set_solver|].
    rewrite IH, insert_by_elem. set_solver. }
  rewrite G. set_solver.
Qed.

Lemma KNearest_length t h a i fn :
  (length (KNearest t h a i fn) ≤ Z.to_nat i)%nat.
Proof. unfold KNearest. rewrite length_take. lia. Qed.

Lemma KNearest_elem t h a i fn p :
  p ∈ KNearest t h a i fn →
  p ∈ points t ∧ contains (region a) (h !!! p) = true ∧ fn p = true.
Proof.
  unfold KNearest. intros Hp.
  apply (subseteq_take (Z.to_nat i)), sort_by_elem, list_elem_of_filter in Hp.
  destruct Hp as [[Hw Hf]%andb_prop Hp]. done.
Qed.

End SpatialIndex_facts.

(** ** Locking discipline *)

Section Locking.

Context {Q : Index}.

Lemma quiet_ret {A} (a : A) : quiet (ret a).
Proof. intros s. exists []. by rewrite app_nil_r. Qed.

Lemma quiet_bind {A B} (c : M A) (k : A → M B) :
  quiet c → (∀ a, quiet (k a)) → quiet (bind c k).
Proof.
  intros Hc Hk s. rewrite run_bind.
  destruct (Hc s) as (e1 & Ht1 & Hf1 & Hm1).
  destruct (Hk (result c s) (run c s)) as (e2 & Ht2 & Hf2 & Hm2).
  exists (e1 ++ e2). rewrite Ht2, Ht1, Hm2, Hm1, app_assoc.
  split_and!; [done| |done]. by apply Forall_app.
Qed.

Lemma quiet_users_get id : quiet (users_get id).
Proof. intros s. exists [EvUsers id]. split_and!; [done| |done]. by repeat constructor. Qed.

Lemma quiet_users_set id u : quiet (users_set id u).
Proof. intros s. exists [EvUsers id]. split_and!; [done| |done]. by repeat constructor. Qed.

Lemma quiet_new_point x y d : quiet (new_point x y d).
Proof. intros s. exists []. by rewrite app_nil_r. Qed.

Lemma quiet_get_heap : quiet get_heap.
Proof. intros s. exists []. by rewrite app_nil_r. Qed.

Lemma quiet_world_Insert p : quiet (world_Insert p).
Proof.
  intros s. unfold world_Insert. run_monad.
  destruct (Insert (world (mgr s)) (heap s) p) as [[t' h'] r]. cbn.
  exists [EvWorld (CInsert p r)]. split_and!; [done| |done]. by repeat constructor.
Qed.

Lemma quiet_world_Update p np : quiet (world_Update p np).
Proof.
  intros s. unfold world_Update. run_monad.
  destruct (Update (world (mgr s)) (heap s) p np) as [[t' h'] r]. cbn.
  exists [EvWorld (CUpdate p np r)]. split_and!; [done| |done]. by repeat constructor.
Qed.

Lemma quiet_world_KNearest a i fn : quiet (world_KNearest a i fn).
Proof.
  intros s. exists [EvWorld (CKNearest a i)].
  split_and!; [done| |done]. by repeat constructor.
Qed.

Lemma quiet_addContacts_loop id u cs : quiet (addContacts_loop id u cs).
Proof.
  revert u. induction cs as [|c cs IH]; intros u; simpl; [apply quiet_ret|].
  destruct (contacts u !! c); [apply IH|].
  apply quiet_bind; [apply quiet_users_set|intros _; apply IH].
Qed.

Create HintDb quiet.
Hint Resolve quiet_ret quiet_users_get quiet_users_set quiet_new_point
  quiet_get_heap quiet_world_Insert quiet_world_Update quiet_world_KNearest
  quiet_addContacts_loop : quiet.

Ltac quiet_step :=
  first [ solve [eauto with quiet] | apply quiet_bind; [|intros ?] | case_match ].

Lemma run_Lock s :
  trace (run Lock s) = trace s ++ [EvLock] ∧
  mu (mgr (run Lock s)) = mkRWMutex true (readers (mu (mgr s))).
Proof. done. Qed.

Lemma run_Unlock s :
  trace (run Unlock s) = trace s ++ [EvUnlock] ∧
  mu (mgr (run Unlock s)) = mkRWMutex false (readers (mu (mgr s))).
Proof. done. Qed.

(** [m.Lock(); defer m.Unlock()] around a body that takes no lock. *)
Lemma exclusive_locked {A} (body : M A) s :
  quiet body → mu (mgr s) = unlocked →
  exclusive (Lock ;;; defer Unlock body) s.
Proof.
  intros Hq Hmu. unfold exclusive, defer.
  destruct (Hq (run Lock s)) as (evs & Ht & Hf & Hm).
  destruct (run_Lock s) as [HtL HmL].
  exists evs. rewrite !run_bind, !run_ret.
  destruct (run_Unlock (run body (run Lock s))) as [-> ->].
  rewrite Ht, Hm, HtL, HmL, Hmu, <- !app_assoc. done.
Qed.

(** The log of a run is its account without the mutex states. *)
Lemma exec_trace {A} (c : M A) s l :
  exec c s l → trace (run c s) = trace s ++ l.*1.
Proof.
  induction 1 as [A a s|A B c k s l1 l2 _ IH1 _ IH2| | | | | | | | |p s|p np s|];
    try done.
  - by rewrite run_ret, app_nil_r.
  - by rewrite run_bind, IH2, IH1, fmap_app, app_assoc.
  - by rewrite app_nil_r.
  - by rewrite app_nil_r.
  - unfold world_Insert. run_monad.
    by destruct (Insert (world (mgr s)) (heap s) p) as [[t' h'] r].
  - unfold world_Update. run_monad.
    by destruct (Update (world (mgr s)) (heap s) p np) as [[t' h'] r].
Qed.

Lemma under_lock_ret {A} (a : A) : under_lock (ret a).
Proof. intros s. exists []. split_and!; [constructor|constructor|done]. Qed.

Lemma under_lock_bind {A B} (c : M A) (k : A → M B) :
  under_lock c → (∀ a, under_lock (k a)) → under_lock (bind c k).
Proof.
  intros Hc Hk s.
  destruct (Hc s) as (l1 & He1 & Hf1 & Hm1).
  destruct (Hk (result c s) (run c s)) as (l2 & He2 & Hf2 & Hm2).
  exists (l1 ++ l2). split_and!.
  - by apply exec_bind.
  - apply Forall_app. split; [done|]. by rewrite Hm1 in Hf2.
  - by rewrite run_bind, Hm2, Hm1.
Qed.

Lemma under_lock_users_get id : under_lock (users_get id).
Proof.
  intros s. eexists. split_and!; [apply exec_users_get| |done]. by repeat constructor.
Qed.

Lemma under_lock_users_set id u : under_lock (users_set id u).
Proof.
  intros s. eexists. split_and!; [apply exec_users_set| |done]. by repeat constructor.
Qed.

Lemma under_lock_new_point x y d : under_lock (new_point x y d).
Proof. intros s. exists []. split_and!; [constructor|constructor|done]. Qed.

Lemma under_lock_get_heap : under_lock get_heap.
Proof. intros s. exists []. split_and!; [constructor|constructor|done]. Qed.

Lemma under_lock_world_Insert p : under_lock (world_Insert p).
Proof.
  intros s. eexists. split_and!; [apply exec_world_Insert|by repeat constructor|].
  unfold world_Insert. run_monad.
  by destruct (Insert (world (mgr s)) (heap s) p) as [[t' h'] r].
Qed.

Lemma under_lock_world_Update p np : under_lock (world_Update p np).
Proof.
  intros s. eexists. split_and!; [apply exec_world_Update|by repeat constructor|].
  unfold world_Update. run_monad.
  by destruct (Update (world (mgr s)) (heap s) p np) as [[t' h'] r].
Qed.

Lemma under_lock_world_KNearest a i fn : under_lock (world_KNearest a i fn).
Proof.
  intros s. eexists. split_and!; [apply exec_world_KNearest| |done].
  by repeat constructor.
Qed.

Lemma under_lock_addContacts_loop id u cs : under_lock (addContacts_loop id u cs).
Proof.
  revert u. induction cs as [|c cs IH]; intros u; simpl; [apply under_lock_ret|].
  destruct (contacts u !! c); [apply IH|].
  apply under_lock_bind; [apply under_lock_users_set|intros _; apply IH].
Qed.

Create HintDb under_lock.
Hint Resolve under_lock_ret under_lock_users_get under_lock_users_set
  under_lock_new_point under_lock_get_heap under_lock_world_Insert
  under_lock_world_Update under_lock_world_KNearest
  under_lock_addContacts_loop : under_lock.

Ltac under_lock_step :=
  first [ solve [eauto with under_lock]
        | apply under_lock_bind; [|intros ?]
        | case_match ].

(** [m.Lock(); defer m.Unlock()] around a body of accesses, started with
    the mutex free: the body runs with the mutex held. *)
Lemma locked_throughout_intro {A} (body : M A) s :
  under_lock body → mu (mgr s) = unlocked →
  locked_throughout (Lock ;;; defer Unlock body) s.
Proof.
  intros Hb Hmu.
  destruct (run_Lock s) as [_ HmL]. rewrite Hmu in HmL.
  change (mkRWMutex true (readers unlocked)) with write_held in HmL.
  destruct (Hb (run Lock s)) as (l & He & Hf & Hm). rewrite HmL in Hf, Hm.
  destruct (run_Unlock (run body (run Lock s))) as [_ HmU]. rewrite Hm in HmU.
  change (mkRWMutex false (readers write_held)) with unlocked in HmU.
  assert (Hacc : exec (Lock ;;; defer Unlock body) s
                   ((EvLock, write_held) :: l ++ [(EvUnlock, unlocked)])).
  { unfold defer.
    replace ((EvLock, write_held) :: l ++ [(EvUnlock, unlocked)])
      with ([(EvLock, mu (mgr (run Lock s)))] ++
            (l ++ ([(EvUnlock, mu (mgr (run Unlock (run body (run Lock s)))))] ++ [])))
      by (by rewrite HmL, HmU).
    apply exec_bind; [apply exec_Lock|].
    apply exec_bind; [exact He|].
    apply exec_bind; [apply exec_Unlock|apply exec_ret]. }
  exists l. split_and!; [exact Hacc|exact Hf| |].
  - rewrite (exec_trace _ _ _ Hacc). cbn. by rewrite fmap_app.
  - unfold defer. by rewrite !run_bind, run_ret.
Qed.

(** What [locked_throughout] adds to the shape of the log is the state of
    the mutex during the call. *)
Lemma locked_throughout_exclusive {A} (c : M A) s :
  locked_throughout c s → exclusive c s.
Proof.
  intros (body & _ & Hf & Ht & Hm). exists (body.*1). split_and!; [done| |done].
  apply Forall_fmap. eapply Forall_impl; [exact Hf|]. by intros [e m] [? _].
Qed.

(** C9.  Started with the mutex free, each of [addContacts],
    [nearContacts] (a read-only query) and [updateLocation] first takes
    the write lock ([Lock], not [RLock]), after which the mutex is held by
    one writer and no reader; then it performs registry and index accesses
    only, every one of them while the mutex is so held; and it releases
    the lock as its last step on every path, so that the mutex is free
    when the call returns.  The log of the call is [Lock], the accesses,
    [Unlock]. *)
Theorem manager_calls_exclusive (s : state) :
  mu (mgr s) = unlocked →
  (∀ id cs, locked_throughout (addContacts id cs) s) ∧
  (∀ id lat lon, locked_throughout (nearContacts id lat lon) s) ∧
  (∀ id lat lon, locked_throughout (updateLocation id lat lon) s).
Proof.
  intros Hmu. split_and!; intros; apply locked_throughout_intro; try done.
  - repeat under_lock_step.
  - repeat under_lock_step.
  - repeat under_lock_step.
Qed.

End Locking.

(** ** Contact sets *)

Section Contacts.

Context {Q : Index}.

Lemma addContacts_loop_users id cs : ∀ u s,
  users (mgr s) !! id = Some u →
  ∃ u',
    users (mgr (run (addContacts_loop id u cs) s)) !! id = Some u' ∧
    dom (contacts u') = dom (contacts u) ∪ list_to_set cs ∧
    uid u' = uid u ∧ location u' = location u ∧
    ∀ k, k ≠ id →
      users (mgr (run (addContacts_loop id u cs) s)) !! k = users (mgr s) !! k.
Proof.
  induction cs as [|c cs IH]; intros u s Hu; simpl.
  - exists u. split_and!; try done. set_solver.
  - destruct (contacts u !! c) as [b|] eqn:Hc.
    + destruct (IH u s Hu) as (u' & H1 & H2 & H3 & H4 & H5).
      exists u'. split_and!; try done.
      assert (c ∈ dom (contacts u)) by (apply elem_of_dom; eauto).
      set_solver.
    + rewrite run_bind.
      set (u1 := mkUser (uid u) (<[c:=true]> (contacts u)) (location u)).
      set (s1 := run (users_set id u1) s).
      assert (Hu1 : users (mgr s1) !! id = Some u1) by apply lookup_insert_eq.
      destruct (IH u1 s1 Hu1) as (u' & H1 & H2 & H3 & H4 & H5).
      exists u'. split_and!; try done.
      * rewrite H2. unfold u1. cbn. rewrite dom_insert_L. set_solver.
      * intros k Hk. rewrite (H5 k Hk). unfold s1. run_monad.
        by apply lookup_insert_ne.
Qed.

(** One call: the contact set of [id] grows by the given ids, and the
    contact sets of the other users stay as they are. *)
Lemma addContacts_contacts id cs s k :
  contacts_of (run (addContacts id cs) s) k =
  if decide (k = id) then contacts_of s id ∪ list_to_set cs else contacts_of s k.
Proof.
  assert (Hkeep : ∀ (c : M unit) s0,
    users (mgr (run (Lock ;;; defer Unlock c) s0)) = users (mgr (run c (run Lock s0)))).
  { intros c s0. unfold defer. rewrite !run_bind. done. }
  unfold contacts_of, addContacts. rewrite Hkeep, !run_bind.
  set (s0 := run Lock s).
  assert (Hs0 : users (mgr s0) = users (mgr s)) by done.
  assert (Hget : users (mgr (run (users_get id) s0)) = users (mgr s)) by done.
  assert (Hres : result (users_get id) s0 = users (mgr s) !! id) by done.
  rewrite Hres.
  destruct (users (mgr s) !! id) as [u|] eqn:Hu.
  - assert (Hu0 : users (mgr (run (ret u) (run (users_get id) s0))) !! id = Some u).
    { done. }
    destruct (addContacts_loop_users id cs u _ Hu0) as (u' & H1 & H2 & _ & _ & H5).
    change (result (ret u) (run (users_get id) s0)) with u.
    destruct (decide (k = id)) as [->|Hne].
    + by rewrite H1, H2.
    + by rewrite (H5 k Hne).
  - set (c0 := users_set id (newUser id) ;;; ret (newUser id)).
    assert (Hr0 : result c0 (run (users_get id) s0) = newUser id) by done.
    assert (Hs1 : users (mgr (run c0 (run (users_get id) s0))) =
                  <[id := newUser id]> (users (mgr s))).
    { done. }
    rewrite Hr0.
    assert (Hu0 : users (mgr (run c0 (run (users_get id) s0))) !! id =
                  Some (newUser id)) by (rewrite Hs1; apply lookup_insert_eq).
    destruct (addContacts_loop_users id cs _ _ Hu0) as (u' & H1 & H2 & _ & _ & H5).
    destruct (decide (k = id)) as [->|Hne].
    + rewrite H1, H2. cbn. rewrite dom_empty_L. done.
    + rewrite (H5 k Hne), Hs1, lookup_insert_ne; done.
Qed.

(** Any sequence of calls for one user: the union of all that was given. *)
Lemma addContacts_all id (calls : list (list string)) : ∀ s,
  contacts_of (run_all (addContacts id <$> calls) s) id =
  contacts_of s id ∪ ⋃ (list_to_set <$> calls).
Proof.
  induction calls as [|l calls IH]; intros s; simpl; [set_solver|].
  rewrite IH, addContacts_contacts. rewrite decide_True by done. set_solver.
Qed.

(** C7.  Take any sequence of [addContacts] calls for [u] in which each
    call passes [a, b] or [b, c] and both occur, in any order and however
    often.  Afterwards the contact set of [u] is what it was before
    together with [a], [b] and [c] (exactly those three for a user
    without contacts), it lists no id twice, and no [addContacts] call
    ever makes a contact set smaller. *)
Theorem addContacts_union (s : state) (u a b c : string) (calls : list (list string)) :
  (∀ l, l ∈ calls → l = [a; b] ∨ l = [b; c]) →
  [a; b] ∈ calls →
  [b; c] ∈ calls →
  contacts_of (run_all (addContacts u <$> calls) s) u =
    contacts_of s u ∪ {[a; b; c]} ∧
  NoDup (elements (contacts_of (run_all (addContacts u <$> calls) s) u)) ∧
  (∀ s0 id l k, contacts_of s0 k ⊆ contacts_of (run (addContacts id l) s0) k).
Proof.
  intros Hall Hab Hbc. split_and!.
  - rewrite addContacts_all. f_equal. apply set_eq. intros x.
    rewrite elem_of_union_list. split.
    + intros (X & [l [-> Hl]]%list_elem_of_fmap & Hx).
      destruct (Hall l Hl) as [-> | ->]; set_solver.
    + intros Hx.
      assert (x ∈ (list_to_set [a; b] : gset string) ∨
              x ∈ (list_to_set [b; c] : gset string)) as [H|H] by set_solver.
      * exists (list_to_set [a; b]). split; [|done].
        apply list_elem_of_fmap. eauto.
      * exists (list_to_set [b; c]). split; [|done].
        apply list_elem_of_fmap. eauto.
  - apply NoDup_elements.
  - intros s0 id l k. rewrite addContacts_contacts.
    destruct (decide (k = id)) as [->|]; set_solver.
Qed.

End Contacts.

(** ** Location updates, for any index *)

Section UpdateLocation.

Context {Q : Index}.

(** Unchanged coordinates: the call only looks the user up. *)
Lemma updateLocation_same id lat lon s u p :
  users (mgr s) !! id = Some u →
  location u = Some p →
  (PrimFloat.eqb (x (heap s !!! p)) lat && PrimFloat.eqb (y (heap s !!! p)) lon) = true →
  run (updateLocation id lat lon) s =
  mkState (mkManager (released (mu (mgr s))) (world (mgr s)) (users (mgr s)))
          (heap s) (trace s ++ [EvLock; EvUsers id; EvUnlock]).
Proof.
  intros Hu Hloc Heq. unfold updateLocation. run_monad.
  rewrite Hu. cbn. rewrite Hloc. cbn. rewrite Heq. cbn.
  by rewrite <- !app_assoc.
Qed.

(** Changed coordinates: one [Update], from the point of the record to a
    new point without payload; the record is not written. *)
Lemma updateLocation_moved id lat lon s u p :
  users (mgr s) !! id = Some u →
  location u = Some p →
  (PrimFloat.eqb (x (heap s !!! p)) lat && PrimFloat.eqb (y (heap s !!! p)) lon) = false →
  let np := length (heap s) in
  let '(t', h', r) :=
    Update (world (mgr s)) (heap s ++ [NewPoint lat lon ANil]) p np in
  run (updateLocation id lat lon) s =
  mkState (mkManager (released (mu (mgr s))) t' (users (mgr s)))
          h' (trace s ++ [EvLock; EvUsers id; EvWorld (CUpdate p np r); EvUnlock]).
Proof.
  intros Hu Hloc Hne. unfold updateLocation. run_monad.
  rewrite Hu. cbn. rewrite Hloc. cbn. rewrite Hne. cbn.
  destruct (Update _ _ _ _) as [[t' h'] r]. cbn.
  by rewrite <- !app_assoc.
Qed.

(** First report of a known user: the new point carries the id, the
    record is made to refer to it, and then comes one [Insert]. *)
Lemma updateLocation_first_known id lat lon s u :
  users (mgr s) !! id = Some u →
  location u = None →
  let p := length (heap s) in
  let '(t', h', r) :=
    Insert (world (mgr s)) (heap s ++ [NewPoint lat lon (AString id)]) p in
  run (updateLocation id lat lon) s =
  mkState (mkManager (released (mu (mgr s))) t'
             (<[id := mkUser (uid u) (contacts u) (Some p)]> (users (mgr s))))
          h'
          (trace s ++ [EvLock; EvUsers id; EvUsers id;
                       EvWorld (CInsert p r); EvUnlock]).
Proof.
  intros Hu Hloc. unfold updateLocation. run_monad.
  rewrite Hu. cbn. rewrite Hloc. cbn.
  destruct (Insert _ _ _) as [[t' h'] r]. cbn.
  by rewrite <- !app_assoc.
Qed.

(** First report of an unknown user: the record is created first. *)
Lemma updateLocation_first_unknown id lat lon s :
  users (mgr s) !! id = None →
  let p := length (heap s) in
  let '(t', h', r) :=
    Insert (world (mgr s)) (heap s ++ [NewPoint lat lon (AString id)]) p in
  run (updateLocation id lat lon) s =
  mkState (mkManager (released (mu (mgr s))) t'
             (<[id := mkUser id ∅ (Some p)]> (users (mgr s))))
          h'
          (trace s ++ [EvLock; EvUsers id; EvUsers id; EvUsers id;
                       EvWorld (CInsert p r); EvUnlock]).
Proof.
  intros Hu. unfold updateLocation. run_monad.
  rewrite Hu. cbn.
  destruct (Insert _ _ _) as [[t' h'] r]. cbn.
  rewrite <- !app_assoc, insert_insert_eq. done.
Qed.

(** A ping whose fields parse is [updateLocation] and an empty answer. *)
Lemma pingHandler_valid r data loc id lat lon s :
  Method r = "POST" →
  Body r = BodyObject data →
  data !! "id" = Some (AString id) →
  data !! "location" = Some (AMap loc) →
  loc !! "lat" = Some (AFloat64 lat) →
  loc !! "lon" = Some (AFloat64 lon) →
  pingHandler r s = (no_content, run (updateLocation id lat lon) s).
Proof.
  intros Hm Hb Hid Hloc Hlat Hlon. unfold pingHandler, index_any.
  rewrite Hm, Hb, Hid, Hloc. cbn. rewrite Hlat, Hlon. cbn.
  unfold bind, ret, run. by destruct (updateLocation id lat lon s).
Qed.

End UpdateLocation.

(** ** Location updates over the index of the specification *)

Section Relocation.

#[local] Existing Instance SpatialIndex.index.
Import SpatialIndex.

Lemma Data_alloc_old (h : store) pt q :
  (q < length h)%nat → Data (h ++ [pt]) q = Data h q.
Proof. intros Hq. unfold Data. by rewrite lookup_total_app_l. Qed.

Lemma lookup_alloc_new (h : store) pt : (h ++ [pt]) !!! length h = pt.
Proof. by rewrite list_lookup_total_middle. Qed.

Lemma Data_alloc_new (h : store) pt : Data (h ++ [pt]) (length h) = data pt.
Proof. unfold Data. by rewrite lookup_alloc_new. Qed.

Lemma filter_agree {A} (P1 P2 : A → Prop) `{∀ a, Decision (P1 a)}
    `{∀ a, Decision (P2 a)} (l : list A) :
  (∀ a, a ∈ l → P1 a ↔ P2 a) → filter P1 l = filter P2 l.
Proof.
  induction l as [|a l IH]; intros Hl; [done|].
  rewrite !filter_cons. rewrite IH by (intros; apply Hl; by right).
  destruct (decide (P1 a)) as [H1|H1], (decide (P2 a)) as [H2|H2]; try done.
  - destruct H2. apply Hl; [by left|done].
  - destruct H1. apply Hl; [by left|done].
Qed.

(** C10.  On the first location report of a user, at a position outside
    the world: [updateLocation] allocates the point with the id as
    payload, makes the record refer to it, and calls [Insert], which
    reports [OutOfBoundsError] and leaves the index as it was.  The report
    is dropped: the record keeps referring to the point, the point is not
    in the index, [updateLocation] returns its only possible value, and
    the ping is answered with 200 and an empty body. *)
Theorem updateLocation_unchecked_insert (id : string) (lat lon : float) (s : state) :
  users (mgr s) !! id ≫= location = None →
  in_world s lat lon = false →
  index_closed s →
  let p := length (heap s) in
  let s' := run (updateLocation id lat lon) s in
  result (updateLocation id lat lon) s = tt ∧
  world_calls (new_events (updateLocation id lat lon) s) =
    [CInsert p (Some OutOfBoundsError)] ∧
  users (mgr s') !! id ≫= location = Some p ∧
  heap s' !!! p = NewPoint lat lon (AString id) ∧
  (p ∉ points (world (mgr s'))) ∧
  world (mgr s') = world (mgr s) ∧
  pingHandler (Scenario.ping id lat lon) s = (no_content, s').
Proof.
  intros Hnone Hout Hclosed p s'.
  assert (Hfresh : p ∉ points (world (mgr s))).
  { intros Hp. unfold index_closed in Hclosed. rewrite Forall_forall in Hclosed.
    apply Hclosed in Hp. subst p. lia. }
  assert (Hping : pingHandler (Scenario.ping id lat lon) s = (no_content, s')).
  { apply (pingHandler_valid (Scenario.ping id lat lon)
             (Scenario.ping_data id lat lon) (Scenario.ping_location lat lon)
             id lat lon s); reflexivity. }
  assert (Hrun : ∃ us evs,
    s' = mkState (mkManager (released (mu (mgr s))) (world (mgr s)) us)
                 (heap s ++ [NewPoint lat lon (AString id)])
                 (trace s ++ evs) ∧
    us !! id ≫= location = Some p ∧
    world_calls evs = [CInsert p (Some OutOfBoundsError)]).
  { unfold in_world in Hout.
    destruct (users (mgr s) !! id) as [u|] eqn:Hu; cbn in Hnone.
    - pose proof (updateLocation_first_known id lat lon s u Hu Hnone) as Hrun.
      cbn zeta in Hrun. change (@quadtree.Insert index) with Insert in Hrun.
      unfold Insert in Hrun. rewrite lookup_alloc_new in Hrun.
      change (contains _ (NewPoint lat lon (AString id)))
        with (contains (boundary (world (mgr s))) (NewPoint lat lon ANil)) in Hrun.
      rewrite Hout in Hrun. eexists _, _. split; [exact Hrun|].
      by rewrite lookup_insert_eq.
    - pose proof (updateLocation_first_unknown id lat lon s Hu) as Hrun.
      cbn zeta in Hrun. change (@quadtree.Insert index) with Insert in Hrun.
      unfold Insert in Hrun. rewrite lookup_alloc_new in Hrun.
      change (contains _ (NewPoint lat lon (AString id)))
        with (contains (boundary (world (mgr s))) (NewPoint lat lon ANil)) in Hrun.
      rewrite Hout in Hrun. eexists _, _. split; [exact Hrun|].
      by rewrite lookup_insert_eq. }
  destruct Hrun as (us & evs & Hs' & Hus & Hevs).
  split_and!; [by destruct (result _ _)|..|exact Hping].
  - unfold new_events. fold s'. rewrite Hs'. cbn. by rewrite drop_app_length.
  - by rewrite Hs'.
  - rewrite Hs'. cbn. subst p. by rewrite lookup_alloc_new.
  - by rewrite Hs'.
  - by rewrite Hs'.
Qed.

(** C8.  Let the record of [id] refer to a point with the coordinates
    [(lat, lon)], and let that point be the one point the index holds
    for [id].  Then [updateLocation id lat lon] returns without an index
    call and leaves index, registry and point store as they are; so does
    a second call right after it, after which the index still holds
    exactly that one point for [id] and as many points in all. *)
Theorem updateLocation_same_coordinates (id : string) (lat lon : float)
    (s : state) (u : user) (p : ref) :
  users (mgr s) !! id = Some u →
  location u = Some p →
  (PrimFloat.eqb (x (heap s !!! p)) lat && PrimFloat.eqb (y (heap s !!! p)) lon) = true →
  points_for s id = [p] →
  let s1 := run (updateLocation id lat lon) s in
  let s2 := run (updateLocation id lat lon) s1 in
  world_calls (new_events (updateLocation id lat lon) s) = [] ∧
  world (mgr s1) = world (mgr s) ∧
  heap s1 = heap s ∧
  users (mgr s1) = users (mgr s) ∧
  world_calls (new_events (updateLocation id lat lon) s1) = [] ∧
  points_for s2 id = [p] ∧
  length (points (world (mgr s2))) = length (points (world (mgr s))).
Proof.
  intros Hu Hloc Heq Hone s1 s2.
  pose proof (updateLocation_same id lat lon s u p Hu Hloc Heq) as H1.
  fold s1 in H1.
  assert (Hu1 : users (mgr s1) !! id = Some u) by by rewrite H1.
  assert (Heq1 : (PrimFloat.eqb (x (heap s1 !!! p)) lat &&
                  PrimFloat.eqb (y (heap s1 !!! p)) lon) = true) by by rewrite H1.
  pose proof (updateLocation_same id lat lon s1 u p Hu1 Hloc Heq1) as H2.
  fold s2 in H2.
  unfold new_events. fold s1 s2. rewrite H2. cbn. rewrite !drop_app_length.
  rewrite H1. cbn. rewrite !drop_app_length.
  split_and!; try done.
Qed.

End Relocation.

(** ** What a ping reports *)

Section Ping.

Context {Q : Index}.

(** C2, as the code has it.  [updateLocation] has no result and drops
    what [Insert] and [Update] report, so it cannot fail; and whenever the
    method is POST and the body holds a string id and a location with
    numeric [lat] and [lon], [pingHandler] performs the update and
    answers 200 with an empty body, for every index and every state,
    whatever the index reported. *)
Theorem pingHandler_reports_nothing (r : Request) (data loc : gmap string any)
    (id : string) (lat lon : float) (s : state) :
  Method r = "POST" →
  Body r = BodyObject data →
  data !! "id" = Some (AString id) →
  data !! "location" = Some (AMap loc) →
  loc !! "lat" = Some (AFloat64 lat) →
  loc !! "lon" = Some (AFloat64 lon) →
  result (updateLocation id lat lon) s = tt ∧
  run (pingHandler r) s = run (updateLocation id lat lon) s ∧
  result (pingHandler r) s = no_content ∧
  Code (result (pingHandler r) s) = StatusOK.
Proof.
  intros Hm Hb Hid Hloc Hlat Hlon.
  pose proof (pingHandler_valid r data loc id lat lon s Hm Hb Hid Hloc Hlat Hlon) as H.
  unfold run at 1, result at 2 3. rewrite H. cbn.
  split_and!; try done. by destruct (result _ _).
Qed.

End Ping.

(** C2, as stated, fails: x is at (1, 1) and pings from (1000, 1000), which
    is outside the world; [Update] reports [OutOfBoundsError], and the
    answer is 200, not a validation error. *)
Lemma update_error_not_surfaced :
  ¬ update_error_surfaces (Q := SpatialIndex.index)
      Scenario.located (Scenario.ping "x" 1000 1000).
Proof.
  intros H. specialize (H 0%nat 1%nat).
  assert (Hcode : Code (result (pingHandler (Q := SpatialIndex.index)
                                  (Scenario.ping "x" 1000 1000))
                               Scenario.located) = 200) by (vm_compute; reflexivity).
  rewrite Hcode in H. unfold StatusBadRequest in H.
  assert (200 = 400) as Habs; [|discriminate Habs].
  apply H. apply list_elem_of_In. vm_compute. tauto.
Qed.

(** ** Invariants of the reachable states *)

Section Invariants.

Context {Q : Index}.

Lemma addContacts_loop_frame id cs : ∀ u s,
  world (mgr (run (addContacts_loop id u cs) s)) = world (mgr s) ∧
  heap (run (addContacts_loop id u cs) s) = heap s ∧
  mu (mgr (run (addContacts_loop id u cs) s)) = mu (mgr s).
Proof.
  induction cs as [|c cs IH]; intros u s; simpl; [done|].
  destruct (contacts u !! c); [apply IH|].
  rewrite run_bind. destruct (IH (mkUser (uid u) (<[c:=true]> (contacts u)) (location u))
                                 (run (users_set id (mkUser (uid u) (<[c:=true]> (contacts u))
                                                            (location u))) s))
    as (-> & -> & ->). done.
Qed.

(** [addContacts] leaves the index and the point store alone, and the
    record it writes keeps the id it had. *)
Lemma addContacts_frame id cs s :
  world (mgr (run (addContacts id cs) s)) = world (mgr s) ∧
  heap (run (addContacts id cs) s) = heap s ∧
  mu (mgr (run (addContacts id cs) s)) = released (mu (mgr s)) ∧
  (registry_ok s → registry_ok (run (addContacts id cs) s)).
Proof.
  unfold addContacts, defer. rewrite !run_bind.
  set (s0 := run Lock s).
  set (o := result (users_get id) s0).
  set (s1 := run (users_get id) s0).
  set (c := match o with
            | Some u => ret u
            | None => users_set id (newUser id);;; ret (newUser id)
            end).
  set (u := result c s1). set (s2 := run c s1).
  assert (Hu : users (mgr s2) !! id = Some u ∧ uid u = default id (uid <$> o) ∧
               world (mgr s2) = world (mgr s) ∧ heap s2 = heap s ∧
               mu (mgr s2) = mkRWMutex true (readers (mu (mgr s))) ∧
               ∀ k, k ≠ id → users (mgr s2) !! k = users (mgr s) !! k).
  { subst u s2 c. assert (Ho : o = users (mgr s) !! id) by done.
    destruct o as [u0|]; cbn.
    - split_and!; try done.
    - split_and!; try done.
      + apply lookup_insert_eq.
      + intros k Hk. by apply lookup_insert_ne. }
  destruct Hu as (Hu1 & Hu2 & Hw & Hh & Hm & Hk).
  destruct (addContacts_loop_frame id cs u s2) as (Hw' & Hh' & Hm').
  destruct (addContacts_loop_users id cs u s2 Hu1) as (u' & H1 & _ & H3 & _ & H5).
  set (s3 := run (addContacts_loop id u cs) s2) in *.
  rewrite run_ret.
  assert (HU : ∀ s', world (mgr (run Unlock s')) = world (mgr s') ∧
                     heap (run Unlock s') = heap s' ∧
                     users (mgr (run Unlock s')) = users (mgr s') ∧
                     mu (mgr (run Unlock s')) = released (mu (mgr s'))) by done.
  destruct (HU s3) as (-> & -> & HUu & ->).
  rewrite Hw', Hh', Hm', Hw, Hh, Hm. split_and!; try done.
  unfold registry_ok. rewrite HUu. intros Hreg k v Hv.
  destruct (decide (k = id)) as [->|Hne].
  - rewrite H1 in Hv. injection Hv as <-. rewrite H3, Hu2.
    assert (Ho : o = users (mgr s) !! id) by done.
    destruct o as [u0|] eqn:Eo; cbn; [|done].
    symmetry in Ho. by apply Hreg in Ho.
  - rewrite (H5 k Hne), (Hk k Hne) in Hv. by apply Hreg in Hv.
Qed.

(** [nearContacts] changes nothing but the log. *)
Lemma nearContacts_frame id lat lon s :
  mgr (run (nearContacts id lat lon) s) =
    mkManager (released (mu (mgr s))) (world (mgr s)) (users (mgr s)) ∧
  heap (run (nearContacts id lat lon) s) = heap s.
Proof.
  unfold nearContacts. run_monad.
  destruct (users (mgr s) !! id) as [u|]; [|done].
  destruct (decide (size (contacts u) = 0%nat)); done.
Qed.

Lemma registry_ok_updateLocation id lat lon s :
  registry_ok s → registry_ok (run (updateLocation id lat lon) s).
Proof.
  intros Hreg. unfold registry_ok in *.
  destruct (users (mgr s) !! id) as [u|] eqn:Hu.
  - destruct (location u) as [p|] eqn:Hloc.
    + destruct (PrimFloat.eqb (x (heap s !!! p)) lat &&
                PrimFloat.eqb (y (heap s !!! p)) lon) eqn:Hc.
      * by rewrite (updateLocation_same id lat lon s u p).
      * pose proof (updateLocation_moved id lat lon s u p Hu Hloc Hc) as H.
        cbn zeta in H. destruct (Update _ _ _ _) as [[t' h'] r]. by rewrite H.
    + pose proof (updateLocation_first_known id lat lon s u Hu Hloc) as H.
      cbn zeta in H. destruct (Insert _ _ _) as [[t' h'] r]. rewrite H. cbn.
      apply map_Forall_insert_2; [|done]. cbn. by apply Hreg in Hu.
  - pose proof (updateLocation_first_unknown id lat lon s Hu) as H.
    cbn zeta in H. destruct (Insert _ _ _) as [[t' h'] r]. rewrite H. cbn.
    by apply map_Forall_insert_2.
Qed.

Lemma released_unlocked : released unlocked = unlocked.
Proof. done. Qed.

Lemma mu_updateLocation id lat lon s :
  mu (mgr (run (updateLocation id lat lon) s)) = released (mu (mgr s)).
Proof.
  destruct (users (mgr s) !! id) as [u|] eqn:Hu.
  - destruct (location u) as [p|] eqn:Hloc.
    + destruct (PrimFloat.eqb (x (heap s !!! p)) lat &&
                PrimFloat.eqb (y (heap s !!! p)) lon) eqn:Hc.
      * by rewrite (updateLocation_same id lat lon s u p).
      * pose proof (updateLocation_moved id lat lon s u p Hu Hloc Hc) as H.
        cbn zeta in H. destruct (Update _ _ _ _) as [[t' h'] r]. by rewrite H.
    + pose proof (updateLocation_first_known id lat lon s u Hu Hloc) as H.
      cbn zeta in H. destruct (Insert _ _ _) as [[t' h'] r]. by rewrite H.
  - pose proof (updateLocation_first_unknown id lat lon s Hu) as H.
    cbn zeta in H. destruct (Insert _ _ _) as [[t' h'] r]. by rewrite H.
Qed.

(** Between calls the mutex is free and every record sits under its own
    id: the premises of the locking and self-exclusion theorems hold in
    every state the server reaches. *)
Lemma reachable_invariant s :
  reachable s → mu (mgr s) = unlocked ∧ registry_ok s.
Proof.
  induction 1 as [|s id cs _ [IHm IHr]|s id lat lon _ [IHm IHr]|s id lat lon _ [IHm IHr]].
  - split; [done|]. apply map_Forall_empty.
  - destruct (addContacts_frame id cs s) as (_ & _ & -> & Hreg).
    rewrite IHm. split; [done|by apply Hreg].
  - destruct (nearContacts_frame id lat lon s) as [Hm _].
    unfold registry_ok. rewrite Hm, IHm. done.
  - rewrite mu_updateLocation, IHm. split; [done|].
    by apply registry_ok_updateLocation.
Qed.

End Invariants.

(** ** Reachable states over the index of the specification *)

Section Closed.

#[local] Existing Instance SpatialIndex.index.
Import SpatialIndex.

Lemma Insert_closed t (h : store) p :
  Forall (λ q, (q < length h)%nat) (points t) → (p < length h)%nat →
  Forall (λ q, (q < length h)%nat) (points (Insert t h p).1.1) ∧
  (Insert t h p).1.2 = h.
Proof.
  intros Ht Hp. unfold Insert. destruct (contains _ _); cbn; [|done].
  split; [|done]. apply Forall_app. split; [done|]. by constructor.
Qed.

Lemma Update_closed t (h : store) p np :
  Forall (λ q, (q < length h)%nat) (points t) → (np < length h)%nat →
  Forall (λ q, (q < length h)%nat) (points (Update t h p np).1.1) ∧
  (Update t h p np).1.2 = h.
Proof.
  intros Ht Hp. unfold Update.
  destruct (_ && _); [done|]. destruct (decide (p ∈ points t)); [|done].
  apply Insert_closed; [|done]. cbn.
  apply Forall_forall. intros q [_ Hq]%list_elem_of_filter.
  rewrite Forall_forall in Ht. by apply Ht.
Qed.

Lemma index_closed_grow (l : list nat) (h : store) pt :
  Forall (λ q, (q < length h)%nat) l →
  Forall (λ q, (q < length (h ++ [pt]))%nat) l.
Proof.
  intros Hl. eapply Forall_impl; [exact Hl|].
  intros q Hq. rewrite length_app. cbn in *. lia.
Qed.

Lemma index_closed_updateLocation id lat lon s :
  index_closed s → index_closed (run (updateLocation id lat lon) s).
Proof.
  intros Hc. unfold index_closed in *.
  assert (Hnew : ∀ pt, (length (heap s) < length (heap s ++ [pt]))%nat).
  { intros pt. rewrite length_app. cbn. lia. }
  destruct (users (mgr s) !! id) as [u|] eqn:Hu.
  - destruct (location u) as [p|] eqn:Hloc.
    + destruct (PrimFloat.eqb (x (heap s !!! p)) lat &&
                PrimFloat.eqb (y (heap s !!! p)) lon) eqn:Hceq.
      * by rewrite (updateLocation_same id lat lon s u p).
      * pose proof (updateLocation_moved id lat lon s u p Hu Hloc Hceq) as H.
        cbn zeta in H. change (@quadtree.Update index) with Update in H.
        destruct (Update_closed (world (mgr s)) (heap s ++ [NewPoint lat lon ANil])
                    p (length (heap s))) as [H1 H2];
          [by apply index_closed_grow|apply Hnew|].
        destruct (Update _ _ _ _) as [[t' h'] r]. rewrite H. cbn in *. by subst h'.
    + pose proof (updateLocation_first_known id lat lon s u Hu Hloc) as H.
      cbn zeta in H. change (@quadtree.Insert index) with Insert in H.
      destruct (Insert_closed (world (mgr s)) (heap s ++ [NewPoint lat lon (AString id)])
                  (length (heap s))) as [H1 H2];
        [by apply index_closed_grow|apply Hnew|].
      destruct (Insert _ _ _) as [[t' h'] r]. rewrite H. cbn in *. by subst h'.
  - pose proof (updateLocation_first_unknown id lat lon s Hu) as H.
    cbn zeta in H. change (@quadtree.Insert index) with Insert in H.
    destruct (Insert_closed (world (mgr s)) (heap s ++ [NewPoint lat lon (AString id)])
                (length (heap s))) as [H1 H2];
      [by apply index_closed_grow|apply Hnew|].
    destruct (Insert _ _ _) as [[t' h'] r]. rewrite H. cbn in *. by subst h'.
Qed.

(** The index never holds a reference that was not allocated: the premise
    [index_closed] of the relocation theorems holds in every state the
    server reaches. *)
Lemma reachable_index_closed s : reachable s → index_closed s.
Proof.
  induction 1 as [|s id cs _ IH|s id lat lon _ IH|s id lat lon _ IH].
  - by apply Forall_nil.
  - destruct (addContacts_frame id cs s) as (Hw & Hh & _).
    unfold index_closed. by rewrite Hw, Hh.
  - destruct (nearContacts_frame id lat lon s) as [Hm Hh].
    unfold index_closed. by rewrite Hm, Hh.
  - by apply index_closed_updateLocation.
Qed.

(** Two reports in a row from one position inside the world, by a user
    that had no point: the first inserts the point, the second is
    answered from the record, and the index holds one point for the
    user. *)
Lemma updateLocation_twice_first_report id lat lon s :
  users (mgr s) !! id ≫= location = None →
  in_world s lat lon = true →
  PrimFloat.eqb lat lat = true →
  PrimFloat.eqb lon lon = true →
  index_closed s →
  points_for s id = [] →
  let s1 := run (updateLocation id lat lon) s in
  let s2 := run (updateLocation id lat lon) s1 in
  world_calls (new_events (updateLocation id lat lon) s1) = [] ∧
  points_for s2 id = [length (heap s)] ∧
  length (points (world (mgr s2))) = length (points (world (mgr s1))) ∧
  length (points (world (mgr s2))) = S (length (points (world (mgr s)))).
Proof.
  intros Hnone Hin Hlat Hlon Hclosed Hzero s1 s2.
  assert (H1 : ∃ us evs u,
    s1 = mkState (mkManager (released (mu (mgr s)))
                            (mkTree (boundary (world (mgr s)))
                                    (points (world (mgr s)) ++ [length (heap s)])) us)
                 (heap s ++ [NewPoint lat lon (AString id)]) (trace s ++ evs) ∧
    us !! id = Some u ∧ location u = Some (length (heap s))).
  { unfold in_world in Hin.
    destruct (users (mgr s) !! id) as [u|] eqn:Hu; cbn in Hnone.
    - pose proof (updateLocation_first_known id lat lon s u Hu Hnone) as Hrun.
      cbn zeta in Hrun. change (@quadtree.Insert index) with Insert in Hrun.
      unfold Insert in Hrun. rewrite lookup_alloc_new in Hrun.
      change (contains _ (NewPoint lat lon (AString id)))
        with (contains (boundary (world (mgr s))) (NewPoint lat lon ANil)) in Hrun.
      rewrite Hin in Hrun. eexists _, _, _. split; [exact Hrun|].
      by rewrite lookup_insert_eq.
    - pose proof (updateLocation_first_unknown id lat lon s Hu) as Hrun.
      cbn zeta in Hrun. change (@quadtree.Insert index) with Insert in Hrun.
      unfold Insert in Hrun. rewrite lookup_alloc_new in Hrun.
      change (contains _ (NewPoint lat lon (AString id)))
        with (contains (boundary (world (mgr s))) (NewPoint lat lon ANil)) in Hrun.
      rewrite Hin in Hrun. eexists _, _, _. split; [exact Hrun|].
      by rewrite lookup_insert_eq. }
  destruct H1 as (us & evs & u & Hs1 & Hu & Hloc).
  assert (Hone : points_for s1 id = [length (heap s)]).
  { rewrite Hs1. unfold points_for. cbn.
    rewrite filter_app, filter_cons, filter_nil, Data_alloc_new. cbn.
    rewrite decide_True by done.
    rewrite <- (app_nil_l [length (heap s)]) at 2. f_equal.
    unfold points_for in Hzero. rewrite <- Hzero. apply filter_agree.
    intros q Hq. rewrite Data_alloc_old; [done|].
    unfold index_closed in Hclosed. rewrite Forall_forall in Hclosed. by apply Hclosed. }
  assert (Hu1 : users (mgr s1) !! id = Some u) by by rewrite Hs1.
  assert (Heq : (PrimFloat.eqb (x (heap s1 !!! length (heap s))) lat &&
                 PrimFloat.eqb (y (heap s1 !!! length (heap s))) lon) = true).
  { rewrite Hs1. cbn. rewrite lookup_alloc_new. cbn. by rewrite Hlat, Hlon. }
  pose proof (updateLocation_same id lat lon s1 u _ Hu1 Hloc Heq) as H2.
  fold s2 in H2. unfold new_events. fold s2.
  assert (Hfor : points_for s2 id = points_for s1 id) by by rewrite H2.
  rewrite Hfor, H2. cbn. rewrite drop_app_length. split_and!; try done.
  rewrite Hs1. cbn. rewrite length_app. cbn. lia.
Qed.

(** What [updateLocation] does to the registry, the store and the points
    of the index, by the case the record is in. *)
Lemma updateLocation_index_shape id lat lon s :
  let s' := run (updateLocation id lat lon) s in
  (users (mgr s') = users (mgr s) ∧ heap s' = heap s ∧
   world (mgr s') = world (mgr s)) ∨
  (users (mgr s') = users (mgr s) ∧
   heap s' = heap s ++ [NewPoint lat lon ANil] ∧
   ∀ q, q ∈ points (world (mgr s')) →
        q ∈ points (world (mgr s)) ∨ q = length (heap s)) ∨
  (users (mgr s) !! id ≫= location = None ∧
   heap s' = heap s ++ [NewPoint lat lon (AString id)] ∧
   (∃ u', users (mgr s') = <[id := u']> (users (mgr s)) ∧
          location u' = Some (length (heap s))) ∧
   ∀ q, q ∈ points (world (mgr s')) →
        q ∈ points (world (mgr s)) ∨ q = length (heap s)).
Proof.
  intros s'. subst s'.
  destruct (users (mgr s) !! id) as [u|] eqn:Hu.
  - destruct (location u) as [p|] eqn:Hloc.
    + destruct (PrimFloat.eqb (x (heap s !!! p)) lat &&
                PrimFloat.eqb (y (heap s !!! p)) lon) eqn:Hceq.
      * left. by rewrite (updateLocation_same id lat lon s u p).
      * right. left.
        pose proof (updateLocation_moved id lat lon s u p Hu Hloc Hceq) as H.
        cbn zeta in H. change (@quadtree.Update index) with Update in H.
        unfold Update, Insert in H.
        destruct (_ && _) in H; [by rewrite H; split_and!; [| |left]|].
        destruct (decide (p ∈ points (world (mgr s)))) in H;
          [|by rewrite H; split_and!; [| |left]].
        destruct (contains _ _) in H; rewrite H; cbn; (split_and!; [done|done|]).
        -- intros q [[_ ?]%list_elem_of_filter| ->%list_elem_of_singleton]%elem_of_app;
             [by left|by right].
        -- intros q [_ ?]%list_elem_of_filter. by left.
    + right. right.
      pose proof (updateLocation_first_known id lat lon s u Hu Hloc) as H.
      cbn zeta in H. change (@quadtree.Insert index) with Insert in H.
      unfold Insert in H.
      destruct (contains _ _) in H; rewrite H; cbn;
        (split_and!; [done|done|by eexists|]).
      * intros q [?| ->%list_elem_of_singleton]%elem_of_app; [by left|by right].
      * intros q ?. by left.
  - right. right.
    pose proof (updateLocation_first_unknown id lat lon s Hu) as H.
    cbn zeta in H. change (@quadtree.Insert index) with Insert in H.
    unfold Insert in H.
    destruct (contains _ _) in H; rewrite H; cbn;
      (split_and!; [done|done|by eexists|]).
    + intros q [?| ->%list_elem_of_singleton]%elem_of_app; [by left|by right].
    + intros q ?. by left.
Qed.

Lemma addContacts_locations id cs s k :
  users (mgr (run (addContacts id cs) s)) !! k ≫= location =
  users (mgr s) !! k ≫= location.
Proof.
  assert (Hkeep : ∀ (c : M unit) s0,
    users (mgr (run (Lock ;;; defer Unlock c) s0)) = users (mgr (run c (run Lock s0)))).
  { intros c s0. unfold defer. rewrite !run_bind. done. }
  unfold addContacts. rewrite Hkeep, !run_bind.
  set (s0 := run Lock s).
  assert (Hres : result (users_get id) s0 = users (mgr s) !! id) by done.
  rewrite Hres.
  destruct (users (mgr s) !! id) as [u|] eqn:Hu.
  - assert (Hu0 : users (mgr (run (ret u) (run (users_get id) s0))) !! id = Some u)
      by done.
    destruct (addContacts_loop_users id cs u _ Hu0) as (u' & H1 & _ & _ & H4 & H5).
    change (result (ret u) (run (users_get id) s0)) with u.
    destruct (decide (k = id)) as [->|Hne].
    + rewrite H1, Hu. cbn. done.
    + by rewrite (H5 k Hne).
  - set (c0 := users_set id (newUser id) ;;; ret (newUser id)).
    assert (Hr0 : result c0 (run (users_get id) s0) = newUser id) by done.
    assert (Hs1 : users (mgr (run c0 (run (users_get id) s0))) =
                  <[id := newUser id]> (users (mgr s))) by done.
    rewrite Hr0.
    assert (Hu0 : users (mgr (run c0 (run (users_get id) s0))) !! id =
                  Some (newUser id)) by (rewrite Hs1; apply lookup_insert_eq).
    destruct (addContacts_loop_users id cs _ _ Hu0) as (u' & H1 & _ & _ & H4 & H5).
    destruct (decide (k = id)) as [->|Hne].
    + rewrite H1, Hu. cbn. done.
    + rewrite (H5 k Hne), Hs1, lookup_insert_ne; done.
Qed.

Lemma location_lookup (us : gmap string user) id p :
  us !! id ≫= location = Some p ↔ ∃ u, us !! id = Some u ∧ location u = Some p.
Proof.
  destruct (us !! id) as [u|]; cbn; [|naive_solver]. naive_solver.
Qed.

(** The record of a user refers to an allocated point, and a point of the
    index that carries an id is the point of the record of that id: both
    hold in every state the server reaches. *)
Lemma reachable_records s : reachable s → records_closed s ∧ payload_owned s.
Proof.
  intros Hr. pose proof (reachable_index_closed s Hr) as Hclosed. revert Hclosed.
  induction Hr as [|s id cs Hr IH|s id lat lon Hr IH|s id lat lon Hr IH];
    intros Hclosed'.
  - split.
    { intros id u p Hu.
      change (users (mgr defaultManager)) with (∅ : gmap string user) in Hu.
      by rewrite lookup_empty in Hu. }
    intros q id Hq. by apply not_elem_of_nil in Hq.
  - destruct (IH (reachable_index_closed s Hr)) as [Hrec Hown].
    destruct (addContacts_frame id cs s) as (Hw & Hh & _).
    split.
    + intros k u p Hu Hloc. rewrite Hh.
      assert (users (mgr s) !! k ≫= location = Some p) as (u0 & ? & ?)%location_lookup.
      { rewrite <- addContacts_locations with (id := id) (cs := cs).
        apply location_lookup. eauto. }
      eauto.
    + intros q k. rewrite Hw, Hh, addContacts_locations. apply Hown.
  - destruct (IH (reachable_index_closed s Hr)) as [Hrec Hown].
    destruct (nearContacts_frame id lat lon s) as [Hm Hh].
    split.
    + intros k u p. rewrite Hm, Hh. apply Hrec.
    + intros q k. rewrite Hm, Hh. apply Hown.
  - pose proof (reachable_index_closed s Hr) as Hclosed.
    destruct (IH Hclosed) as [Hrec Hown].
    unfold index_closed in Hclosed. rewrite Forall_forall in Hclosed.
    destruct (updateLocation_index_shape id lat lon s)
      as [(Hu & Hh & Hw)|[(Hu & Hh & Hq)|(Hnone & Hh & (u' & Hu & Hloc) & Hq)]].
    + split.
      * intros k u p. rewrite Hu, Hh. apply Hrec.
      * intros q k. rewrite Hu, Hh, Hw. apply Hown.
    + split.
      * intros k u p Hk Hloc. rewrite Hu in Hk. rewrite Hh, length_app.
        specialize (Hrec k u p Hk Hloc). lia.
      * intros q k Hin. rewrite Hu, Hh.
        destruct (Hq q Hin) as [Hold| ->].
        -- rewrite Data_alloc_old by by apply Hclosed. by apply Hown.
        -- by rewrite Data_alloc_new.
    + split.
      * intros k u p Hk Hl. rewrite Hh, length_app. rewrite Hu in Hk.
        destruct (decide (k = id)) as [->|Hne].
        -- rewrite lookup_insert_eq in Hk. injection Hk as <-.
           rewrite Hloc in Hl. injection Hl as <-. cbn. lia.
        -- rewrite lookup_insert_ne in Hk by done.
           specialize (Hrec k u p Hk Hl). lia.
      * intros q k Hin. rewrite Hu, Hh.
        destruct (Hq q Hin) as [Hold| ->].
        -- rewrite Data_alloc_old by by apply Hclosed. intros Hk.
           specialize (Hown q k Hold Hk).
           destruct (decide (k = id)) as [->|Hne]; [congruence|].
           by rewrite lookup_insert_ne.
        -- rewrite Data_alloc_new. cbn. intros [= <-].
           by rewrite lookup_insert_eq.
Qed.

(** C1.  In any state the server reaches, let the record of [id] refer to
    a point [p] whose coordinates are not [(lat, lon)].  Then
    [updateLocation id lat lon] makes one index call, [Update] from [p] to
    a newly allocated point [np] that has the new coordinates and payload
    [nil]; the payload of [p] is not attached to it, and the record is not
    written.  Whatever [Update] reports (success, [OutOfBoundsError] for a
    target outside the world, [NotFoundError] when an earlier relocation
    has already taken [p] out of the index), afterwards [p] is not in the
    index, the only point the call can have added is [np], and no point of
    the index carries the id of the user: a point the index holds for the
    user after a relocation has a [nil] payload. *)
Theorem updateLocation_relocated_payload (id : string) (lat lon : float)
    (s : state) (u : user) (p : ref) :
  reachable s →
  users (mgr s) !! id = Some u →
  location u = Some p →
  (PrimFloat.eqb (x (heap s !!! p)) lat && PrimFloat.eqb (y (heap s !!! p)) lon) = false →
  let np := length (heap s) in
  let s' := run (updateLocation id lat lon) s in
  let r := relocation_report s p lat lon in
  world_calls (new_events (updateLocation id lat lon) s) = [CUpdate p np r] ∧
  heap s' = heap s ++ [NewPoint lat lon ANil] ∧
  Data (heap s') np = ANil ∧
  points (world (mgr s')) =
    (filter (λ q, q ≠ p) (points (world (mgr s))) ++
     match r with None => [np] | Some _ => [] end) ∧
  (p ∉ points (world (mgr s'))) ∧
  points_for s' id = [] ∧
  users (mgr s') = users (mgr s).
Proof.
  intros Hr Hu Hloc Hne np s' r.
  pose proof (reachable_index_closed s Hr) as Hclosed.
  destruct (reachable_records s Hr) as [Hrec Hown].
  pose proof (Hrec id u p Hu Hloc) as Hlt.
  unfold index_closed in Hclosed. rewrite Forall_forall in Hclosed.
  pose proof (updateLocation_moved id lat lon s u p Hu Hloc Hne) as Hrun.
  cbn zeta in Hrun. change (@quadtree.Update index) with Update in Hrun.
  unfold Update in Hrun.
  rewrite lookup_alloc_new, lookup_total_app_l in Hrun by done.
  cbn [x y NewPoint] in Hrun. rewrite Hne in Hrun.
  assert (Hshape :
    s' = mkState (mkManager (released (mu (mgr s)))
                    (mkTree (boundary (world (mgr s)))
                            (filter (λ q, q ≠ p) (points (world (mgr s))) ++
                             match r with None => [np] | Some _ => [] end))
                    (users (mgr s)))
                 (heap s ++ [NewPoint lat lon ANil])
                 (trace s ++ [EvLock; EvUsers id; EvWorld (CUpdate p np r); EvUnlock])).
  { subst s' r np. unfold relocation_report.
    destruct (decide (p ∈ points (world (mgr s)))) as [Hin|Hout].
    - unfold Insert in Hrun. cbn [boundary] in Hrun.
      rewrite lookup_alloc_new in Hrun.
      destruct (contains (boundary (world (mgr s))) (NewPoint lat lon ANil));
        rewrite Hrun; [done|]. by rewrite app_nil_r.
    - rewrite Hrun. rewrite app_nil_r.
      replace (filter (λ q, q ≠ p) (points (world (mgr s))))
        with (points (world (mgr s))); [by destruct (world (mgr s))|].
      symmetry. clear -Hout. induction (points (world (mgr s))) as [|q l IH]; [done|].
      rewrite filter_cons. apply not_elem_of_cons in Hout as [Hq Hl].
      rewrite decide_True by done. by rewrite IH. }
  assert (Hnot : p ∉ points (world (mgr s'))).
  { rewrite Hshape. cbn.
    intros [[? _]%list_elem_of_filter|Hq]%elem_of_app; [done|].
    destruct r; [by apply not_elem_of_nil in Hq|].
    apply list_elem_of_singleton in Hq. subst np. lia. }
  unfold new_events. fold s'. rewrite Hshape in *. cbn in *.
  split_and!; try done.
  - by rewrite drop_app_length.
  - by rewrite Data_alloc_new.
  - apply elem_of_nil_inv. intros q [Hpay Hq]%list_elem_of_filter. cbn in Hq.
    apply elem_of_app in Hq as [[Hqp Hq]%list_elem_of_filter|Hq].
    + rewrite Data_alloc_old in Hpay by by apply Hclosed.
      pose proof (Hown q id Hq Hpay) as Ho. rewrite Hu in Ho. cbn in Ho. congruence.
    + destruct r; [by apply not_elem_of_nil in Hq|].
      apply list_elem_of_singleton in Hq. subst q np.
      by rewrite Data_alloc_new in Hpay.
Qed.

End Closed.

(** ** The scenarios of the specification, computed *)

Module Examples.

#[local] Existing Instance SpatialIndex.index.
Import SpatialIndex Scenario.

(** alice finds bob, who stands where she does, and not carol, who never
    reported a position. *)
Example alice_finds_bob :
  result (nearContacts "alice" 51.5 (-0.125)) neighbours = ["bob"].
Proof. by vm_compute. Qed.

(** The same position reported twice leaves one point in the world. *)
Example one_point_after_two_reports :
  points (world (mgr (run (updateLocation "x" 1 1) located))) = [0%nat].
Proof. by vm_compute. Qed.

(** A user without contacts gets the empty answer. *)
Example no_contacts_no_answer : result (nearContacts "x" 1 1) located = [].
Proof. by vm_compute. Qed.

(** a, its own contact, standing where it asks, is not in its own answer. *)
Example own_id_left_out : result (nearContacts "a" 1 1) own_contact = [].
Proof. by vm_compute. Qed.

(** After bob has moved, the point the index holds for him has no payload,
    and alice, standing next to him, does not find him. *)
Example bob_moves_out_of_sight :
  result (nearContacts "alice" 51.5 (-0.125))
         (run (updateLocation "bob" 51.5 (-0.25)) neighbours) = [].
Proof. by vm_compute. Qed.

(** A second report from the new position calls [Update] again, from the
    point the record still refers to, which the index no longer holds. *)
Example second_report_after_move :
  world_calls (new_events (updateLocation "x" 2 2)
                          (run (updateLocation "x" 2 2) located)) =
  [CUpdate 0%nat 2%nat (Some NotFoundError)].
Proof. by vm_compute. Qed.

End Examples.

(** ** The theorems at concrete runs *)

Module Witness.

#[local] Existing Instance SpatialIndex.index.
Import SpatialIndex Scenario.

Ltac by_computation := first [ by vm_compute | apply (bool_decide_unpack _); by vm_compute ].

(** x relocates from (1, 1) to (2, 2). *)
Lemma updateLocation_relocated_payload_witness :
  world_calls (new_events (updateLocation "x" 2 2) located) = [CUpdate 0%nat 1%nat None] ∧
  Data (heap (run (updateLocation "x" 2 2) located)) 1%nat = ANil ∧
  points (world (mgr (run (updateLocation "x" 2 2) located))) = [1%nat] ∧
  points_for (run (updateLocation "x" 2 2) located) "x" = [].
Proof.
  destruct (updateLocation_relocated_payload "x" 2 2 located
              (mkUser "x" ∅ (Some 0%nat)) 0%nat)
    as (H1 & _ & H3 & H4 & _ & H6 & _);
    [apply reach_updateLocation, reach_start|by_computation..|].
  split_and!; [exact H1|exact H3|rewrite H4; by_computation|exact H6].
Defined.

(** x, at (1, 1), pings from outside the world. *)
Lemma pingHandler_reports_nothing_witness :
  Code (result (pingHandler (ping "x" 1000 1000)) located) = StatusOK.
Proof.
  apply (pingHandler_reports_nothing (ping "x" 1000 1000) (ping_data "x" 1000 1000)
           (ping_location 1000 1000) "x" 1000 1000 located); by_computation.
Defined.

(** An unknown user. *)
Lemma nearContacts_short_circuit_witness :
  result (nearContacts "dave" 1 1) neighbours = [] ∧
  world (mgr (run (nearContacts "dave" 1 1) neighbours)) = world (mgr neighbours).
Proof.
  destruct (nearContacts_short_circuit "dave" 1 1 neighbours)
    as (H1 & _ & _ & H4 & _); [left; by_computation|].
  split; [exact H1|exact H4].
Defined.

Lemma KNearest_capped_index : KNearest_capped.
Proof. intros t h a i fn. apply SpatialIndex_facts.KNearest_length. Qed.

Lemma KNearest_filtered_index : KNearest_filtered.
Proof.
  intros t h a i fn p Hp.
  by apply SpatialIndex_facts.KNearest_elem in Hp as (_ & _ & ?).
Qed.

Lemma nearContacts_bounded_witness :
  (length (result (nearContacts "alice" 51.5 (-0.125)) neighbours) ≤ 5)%nat.
Proof.
  apply (nearContacts_bounded "alice" 51.5 (-0.125) neighbours).
  exact KNearest_capped_index.
Defined.

Lemma nearContacts_only_contacts_witness :
  Forall (λ x, x ∈ contacts_of neighbours "alice")
         (result (nearContacts "alice" 51.5 (-0.125)) neighbours).
Proof.
  apply Forall_forall.
  apply (nearContacts_only_contacts "alice" 51.5 (-0.125) neighbours).
  exact KNearest_filtered_index.
Defined.

(** a is its own contact and stands where it asks. *)
Lemma nearContacts_excludes_self_witness :
  "a" ∉ result (nearContacts "a" 1 1) own_contact.
Proof.
  apply (nearContacts_excludes_self "a" 1 1 own_contact).
  unfold registry_ok. by_computation.
Defined.

Lemma addContacts_union_witness :
  contacts_of (run_all (addContacts "u" <$> [["b"; "c"]; ["a"; "b"]; ["b"; "c"]])
                       defaultManager) "u" =
  contacts_of defaultManager "u" ∪ {["a"; "b"; "c"]}.
Proof.
  apply (addContacts_union defaultManager "u" "a" "b" "c"
           [["b"; "c"]; ["a"; "b"]; ["b"; "c"]]).
  - intros l Hl. apply list_elem_of_In in Hl. simpl in Hl.
    destruct Hl as [<-|[<-|[<-|[]]]]; auto.
  - by_computation.
  - by_computation.
Defined.

Lemma manager_calls_exclusive_witness :
  locked_throughout (nearContacts "alice" 51.5 (-0.125)) defaultManager.
Proof.
  apply (manager_calls_exclusive defaultManager). reflexivity.
Defined.

(** x reports (1, 1) a second and a third time. *)
Lemma updateLocation_same_coordinates_witness :
  points_for (run (updateLocation "x" 1 1) (run (updateLocation "x" 1 1) located)) "x"
    = [0%nat] ∧
  length (points (world (mgr
    (run (updateLocation "x" 1 1) (run (updateLocation "x" 1 1) located))))) =
  length (points (world (mgr located))).
Proof.
  destruct (updateLocation_same_coordinates "x" 1 1 located
              (mkUser "x" ∅ (Some 0%nat)) 0%nat)
    as (_ & _ & _ & _ & _ & H6 & H7); [by_computation..|].
  split; [exact H6|exact H7].
Defined.

(** The first report of x comes from outside the world. *)
Lemma updateLocation_unchecked_insert_witness :
  users (mgr (run (updateLocation "x" 1000 1000) defaultManager)) !! "x" ≫= location
    = Some 0%nat ∧
  0%nat ∉ points (world (mgr (run (updateLocation "x" 1000 1000) defaultManager))).
Proof.
  destruct (updateLocation_unchecked_insert "x" 1000 1000 defaultManager)
    as (_ & _ & H3 & _ & H5 & _); [by_computation..|].
  split; [exact H3|exact H5].
Defined.

End Witness.

(** * The rest of the program *)

(** ** addContacts, exactly *)

Section Contacts_exact.

Context {Q : Index}.

(** The map with the value [true] at each of the given ids. *)
Lemma lookup_all_true (X : gset string) k :
  gset_to_gmap true X !! k = if decide (k ∈ X) then Some true else None.
Proof.
  rewrite lookup_gset_to_gmap. destruct (decide (k ∈ X)).
  - by rewrite option_guard_True.
  - by rewrite option_guard_False.
Qed.

Lemma lookup_with_true (m : gmap string bool) (X : gset string) k :
  (m ∪ gset_to_gmap true X) !! k =
  match m !! k with
  | Some b => Some b
  | None => if decide (k ∈ X) then Some true else None
  end.
Proof.
  rewrite lookup_union, lookup_all_true.
  destruct (m !! k), (decide (k ∈ X)); done.
Qed.

Lemma with_true_present (m : gmap string bool) c (X : gset string) :
  is_Some (m !! c) →
  m ∪ gset_to_gmap true ({[c]} ∪ X) = m ∪ gset_to_gmap true X.
Proof.
  intros [b Hb]. apply map_eq. intros k. rewrite !lookup_with_true.
  destruct (m !! k) eqn:Hk; [done|].
  assert (k ≠ c) by congruence.
  destruct (decide (k ∈ X)), (decide (k ∈ {[c]} ∪ X)); set_solver.
Qed.

Lemma with_true_absent (m : gmap string bool) c (X : gset string) :
  m !! c = None →
  <[c := true]> m ∪ gset_to_gmap true X = m ∪ gset_to_gmap true ({[c]} ∪ X).
Proof.
  intros Hc. apply map_eq. intros k. rewrite !lookup_with_true.
  destruct (decide (k = c)) as [->|Hne].
  - rewrite lookup_insert_eq, Hc. rewrite decide_True by set_solver. done.
  - rewrite lookup_insert_ne by done. destruct (m !! k); [done|].
    destruct (decide (k ∈ X)), (decide (k ∈ {[c]} ∪ X)); set_solver.
Qed.

Lemma addContacts_loop_exact id cs : ∀ u s,
  users (mgr s) !! id = Some u →
  users (mgr (run (addContacts_loop id u cs) s)) =
    <[id := with_contacts u cs]> (users (mgr s)).
Proof.
  unfold with_contacts.
  induction cs as [|c cs IH]; intros u s Hu; simpl.
  - rewrite gset_to_gmap_empty, (right_id_L ∅ (∪)).
    symmetry. apply insert_id. by destruct u.
  - destruct (contacts u !! c) as [b|] eqn:Hc.
    + rewrite (IH u s Hu). by rewrite with_true_present.
    + rewrite run_bind.
      set (u1 := mkUser (uid u) (<[c:=true]> (contacts u)) (location u)).
      rewrite (IH u1); [|apply lookup_insert_eq].
      cbn. rewrite insert_insert_eq. by rewrite with_true_absent.
Qed.

Lemma addContacts_exact id cs s :
  users (mgr (run (addContacts id cs) s)) =
    <[id := with_contacts (default (newUser id) (users (mgr s) !! id)) cs]>
      (users (mgr s)).
Proof.
  unfold addContacts, defer. rewrite !run_bind, run_ret.
  assert (HU : ∀ s', users (mgr (run Unlock s')) = users (mgr s')) by done.
  rewrite HU.
  set (s0 := run Lock s).
  assert (Ho : result (users_get id) s0 = users (mgr s) !! id) by done.
  rewrite Ho.
  destruct (users (mgr s) !! id) as [u|] eqn:Hu.
  - rewrite addContacts_loop_exact; done.
  - rewrite addContacts_loop_exact; [|apply lookup_insert_eq].
    cbn. by rewrite insert_insert_eq.
Qed.

End Contacts_exact.

Section Contacts_compose.

Context {Q : Index}.

Lemma with_contacts_twice u l1 l2 :
  with_contacts (with_contacts u l1) l2 = with_contacts (with_contacts u l2) l1.
Proof.
  unfold with_contacts. cbn. f_equal. apply map_eq. intros k.
  rewrite !lookup_with_true.
  destruct (contacts u !! k); [done|].
  destruct (decide (k ∈ (list_to_set l1 : gset string))),
           (decide (k ∈ (list_to_set l2 : gset string))); done.
Qed.

Lemma with_contacts_again u l :
  with_contacts (with_contacts u l) l = with_contacts u l.
Proof.
  unfold with_contacts. cbn. f_equal. apply map_eq. intros k.
  rewrite !lookup_with_true.
  destruct (contacts u !! k); [done|].
  destruct (decide (k ∈ (list_to_set l : gset string))); done.
Qed.

(** X1.  [addContacts] changes one registry entry and nothing else: the
    index and the point store stay as they are, the records of all other
    users stay as they are, and the record of [id] keeps its id and its
    location (a record created by the call has the id [id] and no
    location). *)
Theorem addContacts_touches_one_record (id : string) (cs : list string) (s : state) :
  world (mgr (run (addContacts id cs) s)) = world (mgr s) ∧
  heap (run (addContacts id cs) s) = heap s ∧
  (∀ k, k ≠ id →
     users (mgr (run (addContacts id cs) s)) !! k = users (mgr s) !! k) ∧
  (∃ u', users (mgr (run (addContacts id cs) s)) !! id = Some u' ∧
         uid u' = default id (uid <$> users (mgr s) !! id) ∧
         location u' = users (mgr s) !! id ≫= location).
Proof.
  destruct (addContacts_frame id cs s) as (Hw & Hh & _).
  rewrite addContacts_exact. split_and!; [done|done| |].
  - intros k Hk. by rewrite lookup_insert_ne.
  - eexists. split; [apply lookup_insert_eq|].
    destruct (users (mgr s) !! id) as [u|]; done.
Qed.

(** X2.  A repeated [addContacts] call writes nothing new: after the same
    call twice the registry is what it was after the first. *)
Theorem addContacts_idempotent (id : string) (cs : list string) (s : state) :
  users (mgr (run (addContacts id cs) (run (addContacts id cs) s))) =
  users (mgr (run (addContacts id cs) s)).
Proof.
  rewrite (addContacts_exact id cs (run (addContacts id cs) s)).
  rewrite addContacts_exact, lookup_insert_eq. cbn.
  by rewrite with_contacts_again, insert_insert_eq.
Qed.

(** X3.  Two [addContacts] calls, for the same user or for two users,
    leave the same registry in either order. *)
Theorem addContacts_commute (id1 id2 : string) (l1 l2 : list string) (s : state) :
  users (mgr (run (addContacts id2 l2) (run (addContacts id1 l1) s))) =
  users (mgr (run (addContacts id1 l1) (run (addContacts id2 l2) s))).
Proof.
  rewrite (addContacts_exact id2 l2 (run (addContacts id1 l1) s)).
  rewrite (addContacts_exact id1 l1 (run (addContacts id2 l2) s)).
  rewrite !addContacts_exact.
  destruct (decide (id1 = id2)) as [->|Hne].
  - rewrite !lookup_insert_eq. cbn. rewrite !insert_insert_eq.
    by rewrite with_contacts_twice.
  - rewrite !lookup_insert_ne by done. by apply insert_insert_ne.
Qed.

End Contacts_compose.

(** ** nearContacts, for every index *)

Section NearContacts_more.

Context {Q : Index}.

Lemma collect_payloads h self pts : ∀ acc,
  collect h self pts acc = acc ++ filter (λ x, x ≠ self) (payloads h pts).
Proof.
  unfold payloads.
  induction pts as [|p pts IH]; intros acc; simpl; [by rewrite app_nil_r|].
  destruct (as_string (Data h p)) as [x|]; [|apply IH].
  rewrite filter_cons. destruct (decide (x = self)) as [->|Hne].
  - rewrite decide_False by (intros H; by apply H). apply IH.
  - rewrite decide_True by done. rewrite IH, <- app_assoc. done.
Qed.

(** X4.  [nearContacts] is a read-only query for every input: registry,
    index and point store are unchanged, and the call makes either no index
    call or the one call [KNearest] for at most [nearestContacts] points,
    with the window built from the given position and [nearestDistance]. *)
Theorem nearContacts_read_only (id : string) (lat lon : float) (s : state) :
  users (mgr (run (nearContacts id lat lon) s)) = users (mgr s) ∧
  world (mgr (run (nearContacts id lat lon) s)) = world (mgr s) ∧
  heap (run (nearContacts id lat lon) s) = heap s ∧
  (world_calls (new_events (nearContacts id lat lon) s) = [] ∨
   world_calls (new_events (nearContacts id lat lon) s) =
     [CKNearest (NewAABB (NewPoint lat lon ANil)
                         (HalfPoint (NewPoint lat lon ANil) nearestDistance))
                nearestContacts]).
Proof.
  destruct (nearContacts_frame id lat lon s) as [Hm Hh]. rewrite Hm.
  split_and!; try done.
  unfold new_events, nearContacts. run_monad.
  destruct (users (mgr s) !! id) as [u|]; cbn.
  - destruct (decide (size (contacts u) = 0%nat)); cbn.
    + left. rewrite <- !app_assoc. by rewrite drop_app_length.
    + right. rewrite <- !app_assoc. by rewrite drop_app_length.
  - left. rewrite <- !app_assoc. by rewrite drop_app_length.
Qed.

(** X5.  For a known user with at least one contact, the answer of
    [nearContacts] is the sequence of string payloads of the points
    [KNearest] returned, in the order [KNearest] returned them, with the
    occurrences of the user's own id removed; nothing is reordered and
    nothing else is dropped. *)
Theorem nearContacts_keeps_order (id : string) (lat lon : float) (s : state) (u : user) :
  users (mgr s) !! id = Some u →
  contacts u ≠ ∅ →
  result (nearContacts id lat lon) s =
  filter (λ x, x ≠ uid u)
    (payloads (heap s)
       (KNearest (world (mgr s)) (heap s)
          (NewAABB (NewPoint lat lon ANil)
                   (HalfPoint (NewPoint lat lon ANil) nearestDistance))
          nearestContacts (contactFilter (heap s) (contacts u)))).
Proof.
  intros Hu Hne. rewrite nearContacts_result, Hu.
  destruct (decide (size (contacts u) = 0%nat)) as [H0|_].
  - by apply map_size_empty_inv in H0.
  - cbn zeta. by rewrite collect_payloads.
Qed.

End NearContacts_more.

(** ** updateLocation, for every index *)

Section UpdateLocation_more.

Context {Q : Index}.

(** The registry after [updateLocation]: as before, or with the record of
    a user that had no location written. *)
Lemma updateLocation_users id lat lon s :
  users (mgr (run (updateLocation id lat lon) s)) = users (mgr s) ∨
  ∃ u', users (mgr (run (updateLocation id lat lon) s)) = <[id := u']> (users (mgr s)) ∧
        users (mgr s) !! id ≫= location = None ∧
        contacts u' = default ∅ (contacts <$> users (mgr s) !! id).
Proof.
  destruct (users (mgr s) !! id) as [u|] eqn:Hu.
  - destruct (location u) as [p|] eqn:Hloc.
    + left. destruct (PrimFloat.eqb (x (heap s !!! p)) lat &&
                      PrimFloat.eqb (y (heap s !!! p)) lon) eqn:Hc.
      * by rewrite (updateLocation_same id lat lon s u p).
      * pose proof (updateLocation_moved id lat lon s u p Hu Hloc Hc) as H.
        cbn zeta in H. destruct (Update _ _ _ _) as [[t' h'] r]. by rewrite H.
    + right. pose proof (updateLocation_first_known id lat lon s u Hu Hloc) as H.
      cbn zeta in H. destruct (Insert _ _ _) as [[t' h'] r]. rewrite H.
      eexists. split; [done|]. done.
  - right. pose proof (updateLocation_first_unknown id lat lon s Hu) as H.
    cbn zeta in H. destruct (Insert _ _ _) as [[t' h'] r]. rewrite H.
    eexists. split; [done|]. done.
Qed.

(** X6.  [updateLocation] never changes a contact set and never touches
    the record of another user; and once a record has a location, the
    call leaves the record as it is: the location field is written on the
    first report only. *)
Theorem updateLocation_keeps_records (id : string) (lat lon : float) (s : state) :
  (∀ k, contacts_of (run (updateLocation id lat lon) s) k = contacts_of s k) ∧
  (∀ k, k ≠ id →
     users (mgr (run (updateLocation id lat lon) s)) !! k = users (mgr s) !! k) ∧
  (∀ u p, users (mgr s) !! id = Some u → location u = Some p →
     users (mgr (run (updateLocation id lat lon) s)) = users (mgr s)).
Proof.
  pose proof (updateLocation_users id lat lon s) as Hcases.
  split_and!.
  - intros k. unfold contacts_of.
    destruct Hcases as [->|(u' & -> & _ & Hc)]; [done|].
    destruct (decide (k = id)) as [->|Hne].
    + rewrite lookup_insert_eq, Hc. by destruct (users (mgr s) !! id).
    + by rewrite lookup_insert_ne.
  - intros k Hk. destruct Hcases as [->|(u' & -> & _)]; [done|].
    by rewrite lookup_insert_ne.
  - intros u p Hu Hloc. destruct Hcases as [?|(u' & _ & Hnone & _)]; [done|].
    rewrite Hu in Hnone. cbn in Hnone. congruence.
Qed.

(** X7.  [updateLocation] makes at most one index call, and which one is
    decided by the record alone: [Insert] of a newly allocated point when
    the user has no location yet, nothing when the stored coordinates equal
    the given ones, and otherwise [Update] from the point of the record to a
    newly allocated point. *)
Theorem updateLocation_index_calls (id : string) (lat lon : float) (s : state) :
  match users (mgr s) !! id ≫= location with
  | None =>
      ∃ r, world_calls (new_events (updateLocation id lat lon) s) =
           [CInsert (length (heap s)) r]
  | Some p =>
      if PrimFloat.eqb (x (heap s !!! p)) lat && PrimFloat.eqb (y (heap s !!! p)) lon
      then world_calls (new_events (updateLocation id lat lon) s) = []
      else ∃ r, world_calls (new_events (updateLocation id lat lon) s) =
                [CUpdate p (length (heap s)) r]
  end.
Proof.
  unfold new_events.
  destruct (users (mgr s) !! id) as [u|] eqn:Hu; cbn.
  - destruct (location u) as [p|] eqn:Hloc.
    + destruct (PrimFloat.eqb (x (heap s !!! p)) lat &&
                PrimFloat.eqb (y (heap s !!! p)) lon) eqn:Hc.
      * rewrite (updateLocation_same id lat lon s u p) by done. cbn.
        by rewrite drop_app_length.
      * pose proof (updateLocation_moved id lat lon s u p Hu Hloc Hc) as H.
        cbn zeta in H. destruct (Update _ _ _ _) as [[t' h'] r]. rewrite H. cbn.
        exists r. by rewrite drop_app_length.
    + pose proof (updateLocation_first_known id lat lon s u Hu Hloc) as H.
      cbn zeta in H. destruct (Insert _ _ _) as [[t' h'] r]. rewrite H. cbn.
      exists r. by rewrite drop_app_length.
  - pose proof (updateLocation_first_unknown id lat lon s Hu) as H.
    cbn zeta in H. destruct (Insert _ _ _) as [[t' h'] r]. rewrite H. cbn.
    exists r. by rewrite drop_app_length.
Qed.

End UpdateLocation_more.

(** ** What holds between requests *)

Section Invariants_more.

Context {Q : Index}.

Lemma contacts_true_with_contacts u cs :
  map_Forall (λ _ (b : bool), b = true) (contacts u) →
  map_Forall (λ _ (b : bool), b = true) (contacts (with_contacts u cs)).
Proof.
  intros Hu k b. unfold with_contacts. cbn. rewrite lookup_with_true.
  destruct (contacts u !! k) as [b'|] eqn:Hk.
  - intros [= <-]. by apply Hu in Hk.
  - destruct (decide (k ∈ (list_to_set cs : gset string))); [|done]. by intros [= <-].
Qed.

Lemma contacts_true_addContacts id cs s :
  contacts_true s → contacts_true (run (addContacts id cs) s).
Proof.
  unfold contacts_true. intros Hs. rewrite addContacts_exact.
  apply map_Forall_insert_2; [|done]. apply contacts_true_with_contacts.
  destruct (users (mgr s) !! id) as [u|] eqn:Hu; cbn.
  - by apply Hs in Hu.
  - apply map_Forall_empty.
Qed.

Lemma contacts_true_updateLocation id lat lon s :
  contacts_true s → contacts_true (run (updateLocation id lat lon) s).
Proof.
  unfold contacts_true. intros Hs.
  destruct (updateLocation_users id lat lon s) as [->|(u' & -> & _ & Hc)]; [done|].
  apply map_Forall_insert_2; [|done]. cbn. rewrite Hc.
  destruct (users (mgr s) !! id) as [u|] eqn:Hu; cbn.
  - by apply Hs in Hu.
  - apply map_Forall_empty.
Qed.

(** X8.  In every state the server reaches through manager calls, the
    mutex is free, every record is registered under its own id, and every
    contact is stored with the value [true]: the contact map is used as a
    set. *)
Theorem reachable_state_invariants (s : state) :
  reachable s →
  mu (mgr s) = unlocked ∧ registry_ok s ∧ contacts_true s.
Proof.
  intros Hr. destruct (reachable_invariant s Hr) as [Hm Hreg].
  split_and!; [done|done|].
  clear Hm Hreg.
  induction Hr as [|s id cs _ IH|s id lat lon _ IH|s id lat lon _ IH].
  - apply map_Forall_empty.
  - by apply contacts_true_addContacts.
  - destruct (nearContacts_frame id lat lon s) as [Hm _].
    unfold contacts_true. by rewrite Hm.
  - by apply contacts_true_updateLocation.
Qed.

End Invariants_more.

(** ** The handlers *)

Section Handlers_facts.

Context {Q : Index}.

Lemma as_string_index data k v :
  as_string (index_any data k) = Some v → data !! k = Some (AString v).
Proof.
  unfold index_any. destruct (data !! k) as [[]|]; cbn; try done. by intros [= ->].
Qed.

Lemma as_map_index data k v :
  as_map (index_any data k) = Some v → data !! k = Some (AMap v).
Proof.
  unfold index_any. destruct (data !! k) as [[]|]; cbn; try done. by intros [= ->].
Qed.

Lemma as_float64_index data k v :
  as_float64 (index_any data k) = Some v → data !! k = Some (AFloat64 v).
Proof.
  unfold index_any. destruct (data !! k) as [[]|]; cbn; try done. by intros [= ->].
Qed.

Lemma as_slice_index data k v :
  as_slice (index_any data k) = Some v → data !! k = Some (ASlice v).
Proof.
  unfold index_any. destruct (data !! k) as [[]|]; cbn; try done. by intros [= ->].
Qed.

Lemma method_post r : negb (String.eqb (Method r) "POST") = false → Method r = "POST".
Proof. intros H%negb_false_iff. by apply String.eqb_eq. Qed.

Lemma contact_strings_spec ics : ∀ acc l,
  contact_strings ics acc = Some l ↔ ∃ cs, ics = AString <$> cs ∧ l = acc ++ cs.
Proof.
  induction ics as [|v ics IH]; intros acc l; simpl.
  - split.
    + intros [= <-]. exists []. by rewrite app_nil_r.
    + intros ([|c cs] & Hcs & ->); [by rewrite app_nil_r|done].
  - destruct v as [| | |c| |]; cbn;
      try (split; [done|intros ([|c' cs] & Hcs & _); done]).
    rewrite IH. split.
    + intros (cs & -> & ->). exists (c :: cs). by rewrite <- app_assoc.
    + intros ([|c' cs] & Hcs & ->); [done|]. injection Hcs as -> ->.
      exists cs. by rewrite <- app_assoc.
Qed.

(** X9.  [pingHandler] either rejects the request with status 400 and
    does nothing at all (no lock is taken, no state is read or written),
    or the request is a POST whose body has a string [id] and a [location]
    object with numeric [lat] and [lon], the answer is empty with status
    200, and the state is that of [updateLocation] on these three values.
    Other fields of the body play no part. *)
Theorem pingHandler_all_or_nothing (r : Request) (s : state) :
  (Code (result (pingHandler r) s) = StatusBadRequest ∧ run (pingHandler r) s = s) ∨
  (result (pingHandler r) s = no_content ∧
   ∃ data loc id lat lon,
     Method r = "POST" ∧ Body r = BodyObject data ∧
     data !! "id" = Some (AString id) ∧
     data !! "location" = Some (AMap loc) ∧
     loc !! "lat" = Some (AFloat64 lat) ∧
     loc !! "lon" = Some (AFloat64 lon) ∧
     run (pingHandler r) s = run (updateLocation id lat lon) s).
Proof.
  unfold pingHandler.
  destruct (negb (String.eqb (Method r) "POST")) eqn:Hm; [by left|].
  apply method_post in Hm.
  destruct (Body r) as [| |data] eqn:Hb; [by left|by left|].
  destruct (as_string (index_any data "id")) as [id|] eqn:Hid; [|by left].
  destruct (as_map (index_any data "location")) as [loc|] eqn:Hloc; [|by left].
  destruct (as_float64 (index_any loc "lat")) as [lat|] eqn:Hlat; [|by left].
  destruct (as_float64 (index_any loc "lon")) as [lon|] eqn:Hlon; [|by left].
  right. rewrite result_bind, run_bind, run_ret. split; [done|].
  exists data, loc, id, lat, lon.
  split_and!; try done;
    eauto using as_string_index, as_map_index, as_float64_index.
Qed.

(** X10.  [contactHandler] either rejects the request with status 400 and
    does nothing at all, or the request is a POST whose body has a string
    [id] and an array [contacts] of strings only, the answer is empty with
    status 200, and the state is that of [addContacts] on the id and all
    the strings, in the order given.  One element that is not a string
    rejects the whole request: no contact before it is added. *)
Theorem contactHandler_all_or_nothing (r : Request) (s : state) :
  (Code (result (contactHandler r) s) = StatusBadRequest ∧
   run (contactHandler r) s = s) ∨
  (result (contactHandler r) s = no_content ∧
   ∃ data id cs,
     Method r = "POST" ∧ Body r = BodyObject data ∧
     data !! "id" = Some (AString id) ∧
     data !! "contacts" = Some (ASlice (AString <$> cs)) ∧
     run (contactHandler r) s = run (addContacts id cs) s).
Proof.
  unfold contactHandler.
  destruct (negb (String.eqb (Method r) "POST")) eqn:Hm; [by left|].
  apply method_post in Hm.
  destruct (Body r) as [| |data] eqn:Hb; [by left|by left|].
  destruct (as_string (index_any data "id")) as [id|] eqn:Hid; [|by left].
  destruct (as_slice (index_any data "contacts")) as [ics|] eqn:Hics; [|by left].
  destruct (contact_strings ics []) as [cs|] eqn:Hcs; [|by left].
  apply contact_strings_spec in Hcs as (cs' & -> & ->). cbn.
  right. rewrite result_bind, run_bind, run_ret. split; [done|].
  exists data, id, cs'.
  split_and!; try done; eauto using as_string_index, as_slice_index.
Qed.

End Handlers_facts.

Section Handlers_queries.

Context {Q : Index}.
Variable json_Marshal : reply → option string.
Variable int_of_float64 : float → Z.

(** X11.  [nearHandler] never changes registry, index or point store,
    whatever the request and whether or not the write succeeds.  It either
    rejects the request with one error of status 400 and does nothing at
    all, or the request is a POST with a string [id] and numeric [lat] and
    [lon], the state is that of [nearContacts] on these values, and what is
    written is the encoding of the answer of [nearContacts] (followed by an
    error of status 500 when the write fails), or an error of status 500
    alone when the encoding fails. *)
Theorem nearHandler_read_only (r : Request) (write_ok : bool) (s : state) :
  users (mgr (run (nearHandler json_Marshal r write_ok) s)) = users (mgr s) ∧
  world (mgr (run (nearHandler json_Marshal r write_ok) s)) = world (mgr s) ∧
  heap (run (nearHandler json_Marshal r write_ok) s) = heap s ∧
  ((∃ msg, result (nearHandler json_Marshal r write_ok) s = [WError msg StatusBadRequest] ∧
           run (nearHandler json_Marshal r write_ok) s = s) ∨
   (∃ data loc id lat lon,
      Method r = "POST" ∧ Body r = BodyObject data ∧
      data !! "id" = Some (AString id) ∧
      data !! "location" = Some (AMap loc) ∧
      loc !! "lat" = Some (AFloat64 lat) ∧
      loc !! "lon" = Some (AFloat64 lon) ∧
      run (nearHandler json_Marshal r write_ok) s = run (nearContacts id lat lon) s ∧
      result (nearHandler json_Marshal r write_ok) s =
        match json_Marshal (NearReply (result (nearContacts id lat lon) s)) with
        | None => [WError "Internal Server Error. Could not marshal contacts."
                          StatusInternalServerError]
        | Some b =>
            if write_ok then [WWrite b]
            else [WWrite b;
                  WError "Internal Server Error. Could not write response."
                         StatusInternalServerError]
        end)).
Proof.
  assert (Hcases :
    (∃ msg, result (nearHandler json_Marshal r write_ok) s = [WError msg StatusBadRequest] ∧
            run (nearHandler json_Marshal r write_ok) s = s) ∨
    (∃ data loc id lat lon,
      Method r = "POST" ∧ Body r = BodyObject data ∧
      data !! "id" = Some (AString id) ∧
      data !! "location" = Some (AMap loc) ∧
      loc !! "lat" = Some (AFloat64 lat) ∧
      loc !! "lon" = Some (AFloat64 lon) ∧
      run (nearHandler json_Marshal r write_ok) s = run (nearContacts id lat lon) s ∧
      result (nearHandler json_Marshal r write_ok) s =
        match json_Marshal (NearReply (result (nearContacts id lat lon) s)) with
        | None => [WError "Internal Server Error. Could not marshal contacts."
                          StatusInternalServerError]
        | Some b =>
            if write_ok then [WWrite b]
            else [WWrite b;
                  WError "Internal Server Error. Could not write response."
                         StatusInternalServerError]
        end)).
  { unfold nearHandler.
    destruct (negb (String.eqb (Method r) "POST")) eqn:Hm; [left; by eexists|].
    apply method_post in Hm.
    destruct (Body r) as [| |data] eqn:Hb; [left; by eexists|left; by eexists|].
    destruct (as_string (index_any data "id")) as [id|] eqn:Hid; [|left; by eexists].
    destruct (as_map (index_any data "location")) as [loc|] eqn:Hloc; [|left; by eexists].
    destruct (as_float64 (index_any loc "lat")) as [lat|] eqn:Hlat; [|left; by eexists].
    destruct (as_float64 (index_any loc "lon")) as [lon|] eqn:Hlon; [|left; by eexists].
    right. exists data, loc, id, lat, lon.
    rewrite result_bind, run_bind.
    split_and!; try done;
      eauto using as_string_index, as_map_index, as_float64_index.
    - destruct (json_Marshal _); [destruct write_ok|]; done.
    - destruct (json_Marshal _); [destruct write_ok|]; done. }
  split_and!; [..|exact Hcases].
  - destruct Hcases as [(msg & _ & ->)|(data & loc & id & lat & lon & Hc)]; [done|].
    destruct Hc as (_ & _ & _ & _ & _ & _ & -> & _).
    by destruct (nearContacts_frame id lat lon s) as [-> _].
  - destruct Hcases as [(msg & _ & ->)|(data & loc & id & lat & lon & Hc)]; [done|].
    destruct Hc as (_ & _ & _ & _ & _ & _ & -> & _).
    by destruct (nearContacts_frame id lat lon s) as [-> _].
  - destruct Hcases as [(msg & _ & ->)|(data & loc & id & lat & lon & Hc)]; [done|].
    destruct Hc as (_ & _ & _ & _ & _ & _ & -> & _).
    by destruct (nearContacts_frame id lat lon s) as [_ ->].
Qed.

(** What [allHandler] adds to the log: nothing, or one [KNearest] call. *)
Lemma allHandler_run r write_ok s :
  run (allHandler json_Marshal int_of_float64 r write_ok) s = s ∨
  ∃ a i, run (allHandler json_Marshal int_of_float64 r write_ok) s =
         mkState (mgr s) (heap s) (trace s ++ [EvWorld (CKNearest a i)]).
Proof.
  unfold allHandler.
  destruct (negb (String.eqb (Method r) "POST")); [by left|].
  destruct (Body r) as [| |data]; [by left|by left|].
  destruct (as_string (index_any data "id")); [|by left].
  destruct (as_float64 (index_any data "distance")) as [distance|]; [|by left].
  destruct (as_float64 (index_any data "num_points")) as [numPoints|]; [|by left].
  destruct (as_map (index_any data "location")) as [loc|]; [|by left].
  destruct (as_float64 (index_any loc "lat")) as [lat|]; [|by left].
  destruct (as_float64 (index_any loc "lon")) as [lon|]; [|by left].
  right. eexists _, _. run_monad.
  destruct (json_Marshal _); [destruct write_ok|]; done.
Qed.

(** X12.  [allHandler] reads the index without the manager's mutex: for
    every request it leaves manager, mutex and point store as they are and
    logs no lock operation; its only possible event is one [KNearest]
    call.  So it is not one of the calls that hold the mutex around their
    accesses. *)
Theorem allHandler_takes_no_lock (r : Request) (write_ok : bool) (s : state) :
  mgr (run (allHandler json_Marshal int_of_float64 r write_ok) s) = mgr s ∧
  heap (run (allHandler json_Marshal int_of_float64 r write_ok) s) = heap s ∧
  lock_free (new_events (allHandler json_Marshal int_of_float64 r write_ok) s) ∧
  (length (world_calls
     (new_events (allHandler json_Marshal int_of_float64 r write_ok) s)) ≤ 1)%nat ∧
  ¬ exclusive (allHandler json_Marshal int_of_float64 r write_ok) s.
Proof.
  unfold new_events, lock_free, exclusive.
  destruct (allHandler_run r write_ok s) as [->|(a & i & ->)]; cbn.
  - rewrite drop_all. split_and!; try done; [cbn; lia|].
    intros (body & Ht & _).
    rewrite <- (app_nil_r (trace s)) in Ht at 1.
    by apply app_inv_head in Ht.
  - rewrite drop_app_length. split_and!; try done.
    + by repeat constructor.
    + intros (body & Ht & _). apply app_inv_head in Ht.
      by destruct body.
Qed.

End Handlers_queries.

(** ** The answer of /_all *)

(** One entry of the map [allHandler] builds. *)
Lemma all_users_step h points : ∀ us,
  dom (all_users h points us) = dom us ∪ list_to_set (payloads h points) ∧
  ∀ id e, all_users h points us !! id = Some e →
    us !! id = Some e ∨
    ∃ p, p ∈ points ∧ as_string (Data h p) = Some id ∧
         e = <["lat" := x (h !!! p)]> (<["lon" := y (h !!! p)]> ∅).
Proof.
  unfold payloads.
  induction points as [|p points IH]; intros us; simpl.
  - split; [set_solver|]. intros id e He. by left.
  - destruct (as_string (Data h p)) as [id0|] eqn:Hp.
    + destruct (IH (<[id0 := <["lat" := x (h !!! p)]> (<["lon" := y (h !!! p)]> ∅)]> us))
        as [Hd He].
      split.
      * rewrite Hd, dom_insert_L. cbn. set_solver.
      * intros id e H. apply He in H as [H|(q & Hq & Hid & ->)].
        -- destruct (decide (id = id0)) as [->|Hne].
           ++ rewrite lookup_insert_eq in H. injection H as <-.
              right. exists p. split; [by left|done].
           ++ rewrite lookup_insert_ne in H by done. by left.
        -- right. exists q. split; [by right|done].
    + destruct (IH us) as [Hd He]. split; [done|].
      intros id e H. apply He in H as [H|(q & Hq & Hid & ->)]; [by left|].
      right. exists q. split; [by right|done].
Qed.

Lemma size_list_to_set_length (l : list string) :
  (size (list_to_set l : gset string) ≤ length l)%nat.
Proof.
  induction l as [|a l IH]; [done|]. cbn [list_to_set length].
  destruct (decide (a ∈ (list_to_set l : gset string))) as [Hin|Hout].
  - replace ({[a]} ∪ list_to_set l : gset string) with (list_to_set l : gset string)
      by set_solver. lia.
  - rewrite size_union by set_solver. rewrite size_singleton. lia.
Qed.

Lemma payloads_length h points : (length (payloads h points) ≤ length points)%nat.
Proof.
  unfold payloads. induction points as [|p points IH]; [done|].
  cbn [omap list_omap length]. destruct (as_string _); cbn [length]; lia.
Qed.

(** X13.  The map [allHandler] marshals has one entry for each distinct
    string payload among the points [KNearest] returned and no other
    entry, so it has at most as many entries as there are points; and
    each entry holds, under [lat] and [lon], the coordinates of a returned
    point with that payload.  Points without a string payload, such as a
    point without payload, are left out. *)
Theorem all_users_entries (h : list Point) (points : list nat) :
  dom (all_users h points ∅) = list_to_set (payloads h points) ∧
  (size (all_users h points ∅) ≤ length points)%nat ∧
  Forall (λ '(id, e),
            ∃ p, p ∈ points ∧ as_string (Data h p) = Some id ∧
                 e = <["lat" := x (h !!! p)]> (<["lon" := y (h !!! p)]> ∅))
         (map_to_list (all_users h points ∅)).
Proof.
  destruct (all_users_step h points ∅) as [Hd He].
  assert (Hdom : dom (all_users h points ∅) = list_to_set (payloads h points)).
  { rewrite Hd, dom_empty_L. set_solver. }
  split_and!; [done| |].
  - rewrite <- size_dom, Hdom.
    etrans; [apply size_list_to_set_length|apply payloads_length].
  - apply Forall_forall. intros [id e] Hin%elem_of_map_to_list.
    apply He in Hin as [?|?]; [done|done].
Qed.

Section Compositions.

Context {Q : Index}.
Variable json_Marshal : reply → option string.
Variable int_of_float64 : float → Z.

(** X14.  [allHandler] requires the field [id] to be a string and then
    never uses it: two POST requests whose bodies differ in the value of
    [id] only get the same answer and leave the same state. *)
Theorem allHandler_ignores_id (data : gmap string any) (id1 id2 : string)
    (write_ok : bool) (s : state) :
  allHandler json_Marshal int_of_float64
    (mkRequest "POST" (BodyObject (<["id" := AString id1]> data))) write_ok s =
  allHandler json_Marshal int_of_float64
    (mkRequest "POST" (BodyObject (<["id" := AString id2]> data))) write_ok s.
Proof.
  unfold allHandler, index_any. cbn [Method Body String.eqb negb].
  rewrite !lookup_insert_eq. cbn [default as_string].
  rewrite !(lookup_insert_ne _ "id") by done. done.
Qed.

(** X15.  Location reports do not make anybody visible to a user without
    contacts: if [id] has no contact (or is unknown), then after any
    [updateLocation], by [id] or by anyone else, [nearContacts] for [id]
    still answers with the empty sequence, for every index. *)
Theorem nearContacts_empty_after_report (id who : string) (lat lon lat' lon' : float)
    (s : state) :
  contacts_of s id = ∅ →
  result (nearContacts id lat' lon') (run (updateLocation who lat lon) s) = [].
Proof.
  intros Hempty. rewrite nearContacts_result.
  pose proof (updateLocation_users who lat lon s) as Hcases.
  assert (Hc : contacts_of (run (updateLocation who lat lon) s) id = ∅).
  { rewrite <- Hempty. unfold contacts_of.
    destruct Hcases as [->|(u' & -> & _ & Hc)]; [done|].
    destruct (decide (id = who)) as [->|Hne].
    - rewrite lookup_insert_eq, Hc. by destruct (users (mgr s) !! who).
    - by rewrite lookup_insert_ne. }
  unfold contacts_of in Hc.
  destruct (users (mgr (run (updateLocation who lat lon) s)) !! id) as [u|]; [|done].
  apply dom_empty_iff_L in Hc. rewrite Hc.
  rewrite decide_True by apply map_size_empty. done.
Qed.

End Compositions.

(** ** The theorems of this part at concrete runs *)

Module Witness_rest.

#[local] Existing Instance SpatialIndex.index.
Import SpatialIndex Scenario.

Ltac by_computation :=
  first [ by vm_compute | apply (bool_decide_unpack _); by vm_compute ].

(** carol's record is untouched when alice adds a contact. *)
Lemma addContacts_touches_one_record_witness :
  users (mgr (run (addContacts "alice" ["dave"]) neighbours)) !! "bob" =
  users (mgr neighbours) !! "bob".
Proof.
  destruct (addContacts_touches_one_record "alice" ["dave"] neighbours)
    as (_ & _ & H & _).
  apply H. by_computation.
Defined.

(** alice asks from where she and bob stand. *)
Lemma nearContacts_keeps_order_witness :
  result (nearContacts "alice" 51.5 (-0.125)) neighbours = ["bob"].
Proof.
  rewrite (nearContacts_keeps_order "alice" 51.5 (-0.125) neighbours
             (mkUser "alice" (<["bob" := true]> (<["carol" := true]> ∅)) (Some 0%nat))).
  - by vm_compute.
  - by vm_compute.
  - apply (bool_decide_unpack _). by vm_compute.
Defined.

(** x, who has a location, reports again from elsewhere. *)
Lemma updateLocation_keeps_records_witness :
  users (mgr (run (updateLocation "x" 2 2) located)) = users (mgr located).
Proof.
  destruct (updateLocation_keeps_records "x" 2 2 located) as (_ & _ & H).
  apply (H (mkUser "x" ∅ (Some 0%nat)) 0%nat); by_computation.
Defined.

Lemma reachable_state_invariants_witness :
  mu (mgr neighbours) = unlocked ∧ registry_ok neighbours ∧ contacts_true neighbours.
Proof.
  apply (reachable_state_invariants neighbours).
  unfold neighbours. cbn [run_all].
  apply reach_updateLocation, reach_updateLocation, reach_addContacts, reach_start.
Defined.

(** x has no contact; bob reports a position next to x. *)
Lemma nearContacts_empty_after_report_witness :
  result (nearContacts "x" 1 1) (run (updateLocation "bob" 1 1) located) = [].
Proof.
  apply (nearContacts_empty_after_report "x" "bob" 1 1 1 1 located).
  by_computation.
Defined.

End Witness_rest.
